(** * Emergency map: discovery, ranking and routing (src/script.js)

    A shallow embedding of the map code of [script.js]: the haversine
    distance, the Overpass query builder, [fetchNearby], [classify],
    [routeTo], the "clear route" click handler and [scanNearby].  After the
    map come, each in a part of its own, the seeding script
    ([generateReports]), the chat window ([sendMessage]), the side bar, the
    welcome popup and the drill form of [script.js], and the announcement
    routes of the server ([unnamed/part_000]).

    Conventions of the embedding.
    - JavaScript numbers are read as real numbers ([R]); NaN, infinities and
      IEEE rounding are outside the model, except in two places where
      the code's result depends on them: what [parseInt] returns is a
      [number] (NaN, an infinity, or the double nearest to the integer
      read), and the distance and the sort are read a second time over
      binary64 floats ([haversine_double], [rank_double]).
    - JavaScript strings are [string]s holding the UTF-8 bytes of the text.
      Text that embeds a number rendered by [Number::toString], [toFixed] or
      [Math.round] is a list of fragments ([text]) that keeps the number
      symbolic.
    - Values decoded from JSON whose shape the code does not rely on (the
      [tags] of an element, an [id], a route geometry) are [jsval]s.
    - The module-level variables and the part of the page the code writes
      to form the record [world]; every function is a [world] transformer.
    - An [async] function is cut at each [await] of the network: one
      definition per run-to-completion segment, the local variables that
      survive the suspension being arguments of the later segments.
    - The calls into Leaflet and into the page (markers, layers, views,
      elements looked up by id) are taken to succeed; what can throw is a
      property read on undefined or null, a rejected [fetch] or
      [res.json()], and the two [throw] of the code.
    - A listener of the page is a function on the state of the elements it
      touches, and a series of events is a fold of the listeners over that
      state.  What a service outside the code does (the store of the
      server, the model behind the chat) is an argument of the function
      that calls it. *)

From Stdlib Require Import Floats.
From Stdlib Require Import Reals Lra Lia ZArith ZifyNat Ascii String Sorted.
From stdpp Require Import gmap strings list pretty.

Set Warnings "-register-all,-clear-no-such-hyp,-inexact-float".

(** ** JavaScript values *)

Inductive jsval : Type :=
  | JUndefined
  | JNull
  | JBool (b : bool)
  | JNum (r : R)
  | JStr (s : string)
  | JArr (l : list jsval)
  | JObj (m : gmap string jsval).

(** Text with embedded numbers. *)
Inductive frag : Type :=
  | Lit (s : string)              (* a literal piece *)
  | Num (r : R)                   (* '' + r *)
  | Fixed (r : R) (digits : nat)  (* r.toFixed(digits) *)
  | Rounded (r : R)               (* '' + Math.round(r) *)
  | Enc (t : list frag).          (* encodeURIComponent(t) *)

Definition text := list frag.

(** Results of code that may throw; the payload is the error's message. *)
Inductive result (A : Type) : Type :=
  | Ok (a : A)
  | Throw (msg : text).
Arguments Ok {A} a.
Arguments Throw {A} msg.

Global Instance result_ret : MRet result := fun A a => Ok a.

Global Instance result_bind : MBind result := fun A B k r =>
  match r with
  | Ok a => k a
  | Throw m => Throw m
  end.

(** ToBoolean. *)
Definition truthy (v : jsval) : bool :=
  match v with
  | JUndefined | JNull => false
  | JBool b => b
  | JNum r => if Req_dec_T r 0 then false else true
  | JStr s => if decide (s = EmptyString) then false else true
  | JArr _ | JObj _ => true
  end.

(** [a || b] *)
Definition js_or (a b : jsval) : jsval := if truthy a then a else b.

(** [v.k] for a key [k] that no prototype defines (here: amenity,
    emergency, name): a TypeError on undefined and null, the own property
    of an object, undefined on every other value. *)
Definition get_prop (v : jsval) (k : string) : result jsval :=
  match v with
  | JUndefined | JNull => Throw [Lit "TypeError"]
  | JObj m => Ok (default JUndefined (m !! k))
  | _ => Ok JUndefined
  end.

(** [v === 'lit'] *)
Definition strict_eq_str (v : jsval) (lit : string) : bool :=
  match v with
  | JStr s => if decide (s = lit) then true else false
  | _ => false
  end.

(** ** Geo math (script.js 58-66)

    The distance as the map model carries it: the expression of the code on
    real numbers.  It stands for the number the code computes wherever only
    its identity matters (the same distance in the popup and in the list).
    What the code's doubles make of the expression, NaN included, is
    [haversine_double] further down. *)

(** Math.atan2 on real arguments. *)
Definition atan2 (y x : R) : R :=
  match total_order_T 0 x with
  | inleft (left _) => atan (y / x)                         (* x > 0 *)
  | inleft (right _) =>                                     (* x = 0 *)
      match total_order_T 0 y with
      | inleft (left _) => (PI / 2)%R
      | inleft (right _) => 0%R
      | inright _ => (- (PI / 2))%R
      end
  | inright _ =>                                            (* x < 0 *)
      if Rle_dec 0 y then (atan (y / x) + PI)%R else (atan (y / x) - PI)%R
  end.

Definition toRad (x : R) : R := (x * PI / 180)%R.

Definition R_earth : R := 6371000%R.

Definition haversine (lat1 lon1 lat2 lon2 : R) : R :=
  let dLat := toRad (lat2 - lat1) in
  let dLon := toRad (lon2 - lon1) in
  let a := (sin (dLat / 2) * sin (dLat / 2)
            + cos (toRad lat1) * cos (toRad lat2)
              * sin (dLon / 2) * sin (dLon / 2))%R in
  let c := (2 * atan2 (sqrt a) (sqrt (1 - a)))%R in
  (R_earth * c)%R.

(** ** Classification (script.js 107-114) *)

Inductive category : Type := Hospital | Police | Fire | Shelter | Unknown.

Global Instance category_eq_dec : EqDecision category.
Proof. solve_decision. Defined.

(** The string the code uses for a category. *)
Definition category_name (c : category) : string :=
  match c with
  | Hospital => "hospital"
  | Police => "police"
  | Fire => "fire"
  | Shelter => "shelter"
  | Unknown => "unknown"
  end.

(** An element of the Overpass response, and the object [scanNearby]
    copies it into ([{id, lat, lon, tags}]); [tags = JUndefined] is an
    element without the field. *)
Record element : Type := Element {
  id : jsval;
  lat : R;
  lon : R;
  tags : jsval
}.

Definition classify (elem : element) : result category :=
  let tags := js_or (tags elem) (JObj ∅) in
  a1 ← get_prop tags "amenity";
  if strict_eq_str a1 "hospital" then Ok Hospital else
  a2 ← get_prop tags "amenity";
  if strict_eq_str a2 "police" then Ok Police else
  a3 ← get_prop tags "amenity";
  if strict_eq_str a3 "fire_station" then Ok Fire else
  e4 ← get_prop tags "emergency";
  if strict_eq_str e4 "shelter" then Ok Shelter else
  a4 ← get_prop tags "amenity";
  if strict_eq_str a4 "shelter" then Ok Shelter else
  Ok Unknown.

(** ** parseInt and the radius field (script.js 162) *)

Definition code (c : ascii) : N := N_of_ascii c.

(** One-byte white space and line terminators: TAB, LF, VT, FF, CR, SP. *)
Definition ws1 (c : ascii) : bool :=
  bool_decide (code c ∈ [9; 10; 11; 12; 13; 32]%N).

(** U+00A0 in UTF-8. *)
Definition ws2 (c1 c2 : ascii) : bool :=
  bool_decide (code c1 = 194%N ∧ code c2 = 160%N).

(** U+1680, U+2000..U+200A, U+2028, U+2029, U+202F, U+205F, U+3000 and
    U+FEFF in UTF-8. *)
Definition ws3 (c1 c2 c3 : ascii) : bool :=
  let '(a, b, c) := (code c1, code c2, code c3) in
  bool_decide ((a, b, c) = (225, 154, 128)%N)
  || bool_decide (a = 226%N ∧ b = 128%N ∧
                  ((128 ≤ c)%N ∧ (c ≤ 138)%N ∨ c ∈ [168; 169; 175]%N))
  || bool_decide ((a, b, c) = (226, 129, 159)%N)
  || bool_decide ((a, b, c) = (227, 128, 128)%N)
  || bool_decide ((a, b, c) = (239, 187, 191)%N).

(** TrimString(s, start). *)
Fixpoint trim_start (s : string) : string :=
  match s with
  | EmptyString => s
  | String c1 r1 =>
      if ws1 c1 then trim_start r1 else
      match r1 with
      | EmptyString => s
      | String c2 r2 =>
          if ws2 c1 c2 then trim_start r2 else
          match r2 with
          | EmptyString => s
          | String c3 r3 => if ws3 c1 c2 c3 then trim_start r3 else s
          end
      end
  end.

(** The value of a digit of the given radix. *)
Definition digit_val (radix : Z) (c : ascii) : option Z :=
  let n := Z.of_N (code c) in
  let d := if bool_decide (48 ≤ n ≤ 57)%Z then Some (n - 48)%Z
           else if bool_decide (97 ≤ n ≤ 122)%Z then Some (n - 87)%Z
           else if bool_decide (65 ≤ n ≤ 90)%Z then Some (n - 55)%Z
           else None in
  match d with
  | Some v => if bool_decide (v < radix)%Z then Some v else None
  | None => None
  end.

(** The integer written by the longest prefix of digits; [acc] is the value
    read so far, [None] before the first digit. *)
Fixpoint digits_value (radix : Z) (s : string) (acc : option Z) : option Z :=
  match s with
  | EmptyString => acc
  | String c r =>
      match digit_val radix c with
      | Some d => digits_value radix r (Some (radix * default 0%Z acc + d)%Z)
      | None => acc
      end
  end.

(** The sign of the number and the string after it. *)
Definition strip_sign (s : string) : Z * string :=
  match s with
  | String "-" r => ((-1)%Z, r)
  | String "+" r => (1%Z, r)
  | _ => (1%Z, s)
  end.

(** The radix, 16 after a [0x] or [0X] that is removed, else 10. *)
Definition strip_prefix (s : string) : Z * string :=
  match s with
  | String "0" (String x r) =>
      if bool_decide (x = "x"%char ∨ x = "X"%char) then (16%Z, r)
      else (10%Z, s)
  | _ => (10%Z, s)
  end.

(** The integer that [parseInt(s)], without a radix, reads in [s]: the
    sign times the digits; [None] when there is no digit. *)
Definition mathInt (s : string) : option Z :=
  let '(sign, S1) := strip_sign (trim_start s) in
  let '(radix, S2) := strip_prefix S1 in
  n ← digits_value radix S2 None; Some (sign * n)%Z.

(** What [parseInt] can return: NaN, an infinity, or a finite double that
    is an integer ([-0] is [Integer 0]). *)
Inductive number : Type :=
  | NaN
  | Infinite (negative : bool)
  | Integer (z : Z).

Global Instance number_eq_dec : EqDecision number.
Proof. solve_decision. Defined.

(** The double nearest to the natural number [m], ties to the even
    significand: the [k] low bits that do not fit in the 53 bits of a
    significand are rounded away. *)
Definition round53 (m : Z) : Z :=
  let k := (Z.log2 m - 52)%Z in
  if (k <=? 0)%Z then m
  else
    let q := Z.shiftr m k in
    let r := (m - Z.shiftl q k)%Z in
    let half := Z.shiftl 1 (k - 1) in
    let q' := if (half <? r)%Z || ((r =? half)%Z && Z.odd q)
              then (q + 1)%Z else q in
    Z.shiftl q' k.

(** The Number value for an integer: the nearest double, and an infinity
    when that rounding reaches [2^1024]. *)
Definition to_double (n : Z) : number :=
  let m := round53 (Z.abs n) in
  if (2 ^ 1024 <=? m)%Z then Infinite (n <? 0)%Z
  else Integer (Z.sgn n * m)%Z.

(** [parseInt(s)] without a radix.  Every digit counts, as in the engines
    that read the whole run of digits; the language lets an engine replace
    the decimal digits after the twentieth by zeros. *)
Definition parseInt (s : string) : number :=
  match mathInt s with
  | Some n => to_double n
  | None => NaN
  end.

(** [parseInt(value) || 2000] *)
Definition radius_of (value : string) : number :=
  match parseInt value with
  | NaN | Integer 0 => Integer 2000
  | n => n
  end.

(** ['' + n] *)
Definition number_frag (n : number) : frag :=
  match n with
  | NaN => Lit "NaN"
  | Infinite false => Lit "Infinity"
  | Infinite true => Lit "-Infinity"
  | Integer z => Num (IZR z)
  end.

(** ** The page and the map (script.js 48-55) *)

Record latlng : Type := LatLng { ll_lat : R; ll_lng : R }.

(** A GeoJSON layer made by [L.geoJSON(geom)]; [layer_id] is the identity of
    the object. *)
Record layer : Type := Layer { layer_id : nat; layer_geom : jsval }.

Inductive icon : Type :=
  IconHospital | IconPolice | IconFire | IconShelter | IconMe.

(** A marker of the [placeMarkers] group: its position, its icon
    ([icons[p.type] || icons.shelter]), and, once [bindPopup(...).on('click', ...)]
    has run, the values interpolated in its popup and the destination its
    click handler passes to [routeTo]. *)
Record marker : Type := Marker {
  m_lat : R;
  m_lon : R;
  m_icon : icon;
  m_popup : option (jsval * category * R);   (* name, type, dist *)
  m_dest : option (R * R)
}.

(** A child of [resultsEl]: the values interpolated in its [innerHTML], and
    the destination of its click handler. *)
Record result_item : Type := ResultItem {
  item_type : category;
  item_name : jsval;
  item_dist : R;
  item_lat : R;
  item_lon : R;
  item_dest : R * R
}.

Inductive view : Type :=
  | ViewInitial                           (* setView([20.5937, 78.9629], 5) *)
  | ViewAt (lat lon : R) (zoom : Z)       (* map.setView([lat, lon], zoom) *)
  | ViewFit (l : layer).                  (* map.fitBounds(l.getBounds()) *)

Record world : Type := World {
  meMarker : option latlng;       (* let meMarker: null, or its position *)
  placeMarkers : list marker;     (* the layers of placeMarkers *)
  routeLayer : option layer;      (* let routeLayer *)
  mapLayers : list layer;         (* the GeoJSON layers now on the map *)
  mapView : view;
  status : text;                  (* statusEl.textContent *)
  results : list result_item;     (* the children of resultsEl *)
  radiusInput : string;           (* the value of #radius *)
  show_hospital : bool;           (* the four check boxes *)
  show_police : bool;
  show_fire : bool;
  show_shelter : bool;
  allocated : nat;                (* layer objects created so far *)
  sent : list text                (* the URLs passed to fetch, oldest first *)
}.

Definition set_meMarker (v : option latlng) (w : world) : world :=
  World v (placeMarkers w) (routeLayer w) (mapLayers w) (mapView w) (status w)
    (results w) (radiusInput w) (show_hospital w) (show_police w)
    (show_fire w) (show_shelter w) (allocated w) (sent w).

Definition set_placeMarkers (v : list marker) (w : world) : world :=
  World (meMarker w) v (routeLayer w) (mapLayers w) (mapView w) (status w)
    (results w) (radiusInput w) (show_hospital w) (show_police w)
    (show_fire w) (show_shelter w) (allocated w) (sent w).

Definition set_routeLayer (v : option layer) (w : world) : world :=
  World (meMarker w) (placeMarkers w) v (mapLayers w) (mapView w) (status w)
    (results w) (radiusInput w) (show_hospital w) (show_police w)
    (show_fire w) (show_shelter w) (allocated w) (sent w).

Definition set_mapLayers (v : list layer) (w : world) : world :=
  World (meMarker w) (placeMarkers w) (routeLayer w) v (mapView w) (status w)
    (results w) (radiusInput w) (show_hospital w) (show_police w)
    (show_fire w) (show_shelter w) (allocated w) (sent w).

Definition set_mapView (v : view) (w : world) : world :=
  World (meMarker w) (placeMarkers w) (routeLayer w) (mapLayers w) v (status w)
    (results w) (radiusInput w) (show_hospital w) (show_police w)
    (show_fire w) (show_shelter w) (allocated w) (sent w).

Definition set_status (v : text) (w : world) : world :=
  World (meMarker w) (placeMarkers w) (routeLayer w) (mapLayers w) (mapView w) v
    (results w) (radiusInput w) (show_hospital w) (show_police w)
    (show_fire w) (show_shelter w) (allocated w) (sent w).

Definition set_results (v : list result_item) (w : world) : world :=
  World (meMarker w) (placeMarkers w) (routeLayer w) (mapLayers w) (mapView w)
    (status w) v (radiusInput w) (show_hospital w) (show_police w)
    (show_fire w) (show_shelter w) (allocated w) (sent w).

Definition set_allocated (v : nat) (w : world) : world :=
  World (meMarker w) (placeMarkers w) (routeLayer w) (mapLayers w) (mapView w)
    (status w) (results w) (radiusInput w) (show_hospital w) (show_police w)
    (show_fire w) (show_shelter w) v (sent w).

Definition set_sent (v : list text) (w : world) : world :=
  World (meMarker w) (placeMarkers w) (routeLayer w) (mapLayers w) (mapView w)
    (status w) (results w) (radiusInput w) (show_hospital w) (show_police w)
    (show_fire w) (show_shelter w) (allocated w) v.

(** What the user does to the page: typing in the radius field, checking
    or unchecking the four boxes. *)
Definition set_radiusInput (v : string) (w : world) : world :=
  World (meMarker w) (placeMarkers w) (routeLayer w) (mapLayers w) (mapView w)
    (status w) (results w) v (show_hospital w) (show_police w)
    (show_fire w) (show_shelter w) (allocated w) (sent w).

Definition set_shows (h p f s : bool) (w : world) : world :=
  World (meMarker w) (placeMarkers w) (routeLayer w) (mapLayers w) (mapView w)
    (status w) (results w) (radiusInput w) h p f s (allocated w) (sent w).

(** ** Computations on the world that may throw *)

Definition M (A : Type) : Type := world -> result A * world.

Global Instance M_ret : MRet M := fun A a w => (Ok a, w).

Global Instance M_bind : MBind M := fun A B k m w =>
  match m w with
  | (Ok a, w') => k a w'
  | (Throw e, w') => (Throw e, w')
  end.

Definition throw {A} (e : text) : M A := fun w => (Throw e, w).

(** [try { m } catch (e) { h e.message }] *)
Definition try_catch {A} (m : M A) (h : text -> M A) : M A := fun w =>
  match m w with
  | (Ok a, w') => (Ok a, w')
  | (Throw e, w') => h e w'
  end.

Definition lift {A} (r : result A) : M A := fun w => (r, w).
Definition gets {A} (f : world -> A) : M A := fun w => (Ok (f w), w).
Definition modify (f : world -> world) : M unit := fun w => (Ok (), f w).

(** [l.forEach(f)] *)
Fixpoint forEach {A} (l : list A) (f : A -> M unit) : M unit :=
  match l with
  | [] => mret ()
  | x :: l' => f x;; forEach l' f
  end.

(** The world a computation leaves, thrown or not. *)
Definition exec {A} (m : M A) (w : world) : world := (m w).2.

(** Where a segment of an async function stops: at its end, with the value
    it resolves to, or at the next [await] of the network. *)
Inductive stop (A : Type) : Type :=
  | Finished (a : A)
  | Awaiting.
Arguments Finished {A} a.
Arguments Awaiting {A}.

(** What [fetch] resolves to: the status and what [res.json()] settles to;
    a [Throw] in place of the response is a rejected fetch. *)
Record response (B : Type) : Type := Response {
  resp_status : Z;
  resp_json : result B
}.
Arguments Response {B} _ _.
Arguments resp_status {B} _.
Arguments resp_json {B} _.

(** [res.ok] *)
Definition resp_ok {B} (r : response B) : bool :=
  bool_decide (200 ≤ resp_status r ≤ 299)%Z.

(** ** Status line, geolocation (script.js 55, 69-81) *)

Definition OVERPASS_API : string := "https://overpass-api.de/api/interpreter".
Definition OSRM_ROUTE : string := "https://router.project-osrm.org/route/v1/driving".

Definition setStatus (txt : text) : M unit :=
  modify (set_status (Lit "Status: " :: txt)).

(** The success callback of [watchPosition]. *)
Definition on_position (lat lon accuracy : R) : M unit :=
  setStatus [Lit "located at "; Fixed lat 6; Lit ", "; Fixed lon 6;
             Lit " (accuracy "; Num accuracy; Lit "m)"];;
  me ← gets meMarker;
  match me with
  | None => modify (set_meMarker (Some (LatLng lat lon)))
  | Some _ => modify (set_meMarker (Some (LatLng lat lon)))
  end.

(** The error callback of [watchPosition]. *)
Definition on_geo_error (message : string) : M unit :=
  setStatus [Lit "Geo error: "; Lit message].

(** [geolocation] tells whether [navigator.geolocation] exists. *)
Definition startWatch (geolocation : bool) : M unit :=
  if negb geolocation then setStatus [Lit "Geolocation not supported"]
  else mret ().

(** ** Overpass query and fetchNearby (script.js 84-105) *)

Definition buildOverpassQuery (lat lon : R) (radius : number) : text :=
  let node (sel : string) : text :=
    [Lit "node(around:"; number_frag radius; Lit ","; Num lat; Lit ",";
     Num lon; Lit sel] in
  let tags : list text :=
    [node ")[amenity=hospital];";
     node ")[amenity=police];";
     node ")[amenity=fire_station];";
     node ")[emergency=shelter];";
     node ")[amenity=shelter];"] in
  [Lit "[out:json][timeout:25];("] ++ concat tags ++ [Lit ");out center;"].

(** [fetch(url)]: the request leaves; the caller is suspended. *)
Definition fetch (url : text) : M unit :=
  modify (fun w => set_sent (sent w ++ [url]) w).

(** The body of an Overpass answer: its [elements] array, if any. *)
Record overpass_data : Type := OverpassData {
  elements : option (list element)
}.

(** Up to [await fetch(url)]. *)
Definition fetchNearby_call (lat lon : R) (radius : number) : M unit :=
  setStatus [Lit "Searching nearby..."];;
  let q := buildOverpassQuery lat lon radius in
  let url := [Lit OVERPASS_API; Lit "?data="; Enc q] in
  fetch url.

(** From the settled [fetch] to [await res.json()], or through the [catch]. *)
Definition fetchNearby_fetched (res : result (response overpass_data))
  : M (stop (list element)) :=
  try_catch
    (r ← lift res;
     if negb (resp_ok r)
     then throw [Lit "Overpass error "; Num (IZR (resp_status r))]
     else mret Awaiting)
    (fun e => setStatus (Lit "Overpass failed: " :: e);; mret (Finished [])).

(** From the settled [res.json()] to the [return]. *)
Definition fetchNearby_parsed (json : result overpass_data)
  : M (list element) :=
  try_catch
    (data ← lift json;
     mret (default [] (elements data)))
    (fun e => setStatus (Lit "Overpass failed: " :: e);; mret []).

(** ** Places (script.js 116-129) *)

Definition clearPlaces : M unit :=
  modify (set_placeMarkers []);;
  modify (set_results []).

(** A place of [scanNearby] once [type] and [dist] are set. *)
Record place : Type := Place {
  p_elem : element;       (* id, lat, lon, tags *)
  p_type : category;
  p_dist : R
}.

(** [(tags && (tags.name || tags['amenity'])) || 'Unnamed'] *)
Definition list_name (tags : jsval) : result jsval :=
  inner ← (if truthy tags
           then n ← get_prop tags "name";
                if truthy n then mret n else get_prop tags "amenity"
           else mret tags);
  mret (js_or inner (JStr "Unnamed")).

Definition addPlaceToList (place : place) (myLat myLon : R) : M unit :=
  let type := p_type place in
  name ← lift (list_name (tags (p_elem place)));
  let lat := lat (p_elem place) in
  let lon := lon (p_elem place) in
  let dist := haversine myLat myLon lat lon in
  modify (fun w =>
    set_results (results w ++ [ResultItem type name dist lat lon (lat, lon)]) w).

(** ** routeTo and the clear button (script.js 131-156) *)

(** One entry of the [routes] array of an OSRM answer, and the answer. *)
Record osrm_route : Type := OsrmRoute {
  geometry : jsval;
  distance : R;
  duration : R
}.

Record osrm_data : Type := OsrmData {
  routes : option (list osrm_route)
}.

(** [map.removeLayer(l)] *)
Definition removeLayer (l : layer) : M unit :=
  modify (fun w =>
    set_mapLayers (filter (fun x => layer_id x ≠ layer_id l) (mapLayers w)) w).

(** [L.geoJSON(geom).addTo(map)]: a new layer object, added to the map. *)
Definition geoJSON_addTo (geom : jsval) : M layer :=
  n ← gets allocated;
  let l := Layer n geom in
  modify (set_allocated (S n));;
  modify (fun w => set_mapLayers (mapLayers w ++ [l]) w);;
  mret l.

(** Up to [await fetch(url)]; [Finished] when the guard returns. *)
Definition routeTo_call (destLat destLon : R) : M (stop unit) :=
  me ← gets meMarker;
  match me with
  | None =>
      setStatus [Lit "Current location unknown — allow location and try again"];;
      mret (Finished ())
  | Some from =>
      let url := [Lit OSRM_ROUTE; Lit "/"; Num (ll_lng from); Lit ",";
                  Num (ll_lat from); Lit ";"; Num destLon; Lit ",";
                  Num destLat;
                  Lit "?overview=full&geometries=geojson&steps=false"] in
      setStatus [Lit "Requesting route..."];;
      fetch url;;
      mret Awaiting
  end.

(** From the settled [fetch] to [await res.json()], or through the [catch]. *)
Definition routeTo_fetched (res : result (response osrm_data))
  : M (stop unit) :=
  try_catch
    (r ← lift res;
     if negb (resp_ok r)
     then throw [Lit "Routing error "; Num (IZR (resp_status r))]
     else mret Awaiting)
    (fun e => setStatus (Lit "Routing failed: " :: e);; mret (Finished ())).

(** From the settled [res.json()] to the end. *)
Definition routeTo_parsed (json : result osrm_data) : M unit :=
  try_catch
    (j ← lift json;
     old ← gets routeLayer;
     match old with Some l => removeLayer l | None => mret () end;;
     match routes j with
     | Some (r0 :: _) =>
         let geom := geometry r0 in
         l ← geoJSON_addTo geom;
         modify (set_routeLayer (Some l));;
         let dist := distance r0 in
         let dur := duration r0 in
         setStatus [Lit "Route: "; Fixed (dist / 1000) 2; Lit " km — ";
                    Rounded (dur / 60); Lit " min"];;
         modify (set_mapView (ViewFit l))
     | _ => setStatus [Lit "No route found"]
     end)
    (fun e => setStatus (Lit "Routing failed: " :: e)).

(** The click handler of #clearRoute. *)
Definition clearRoute_click : M unit :=
  old ← gets routeLayer;
  match old with
  | Some l =>
      removeLayer l;;
      modify (set_routeLayer None);;
      setStatus [Lit "Route cleared"]
  | None => mret ()
  end.

(** The click handler of a result item. *)
Definition item_click (it : result_item) : M (stop unit) :=
  modify (set_mapView (ViewAt (item_dest it).1 (item_dest it).2 16));;
  routeTo_call (item_dest it).1 (item_dest it).2.

(** The click handler of #locate. *)
Definition locate_click : M unit :=
  me ← gets meMarker;
  match me with
  | Some p => modify (set_mapView (ViewAt (ll_lat p) (ll_lng p) 16))
  | None => setStatus [Lit "No location available yet"]
  end.

(** ** Array.prototype.sort

    The order [sort] returns for a consistent comparator is fixed by the
    language: sorted for the comparator, equal elements in their former
    order.  The model is the insertion sort that yields that order. *)

Fixpoint insert_sorted {A} (after : A -> A -> bool) (x : A) (l : list A)
  : list A :=
  match l with
  | [] => [x]
  | y :: l' => if after x y then y :: insert_sorted after x l' else x :: l
  end.

Definition stable_sort {A} (after : A -> A -> bool) (l : list A) : list A :=
  foldr (insert_sorted after) [] l.

Global Instance Rlt_decision (x y : R) : Decision (x < y)%R := Rlt_dec x y.
Global Instance Rle_decision (x y : R) : Decision (x <= y)%R := Rle_dec x y.
Global Instance Req_decision : EqDecision R := Req_dec_T.

(** [l.sort(cmp)]: [a] goes after [b] when [cmp(a, b) > 0]. *)
Definition array_sort {A} (cmp : A -> A -> R) (l : list A) : list A :=
  stable_sort (fun a b => bool_decide (0 < cmp a b)%R) l.

(** ** scanNearby (script.js 158-194) *)

(** [okTypes] after the four pushes. *)
Definition okTypes_of (w : world) : list category :=
  (if show_hospital w then [Hospital] else [])
  ++ (if show_police w then [Police] else [])
  ++ (if show_fire w then [Fire] else [])
  ++ (if show_shelter w then [Shelter] else []).

(** Whether the check box of a category is checked; there is no box for
    [unknown]. *)
Definition box_checked (w : world) (c : category) : bool :=
  match c with
  | Hospital => show_hospital w
  | Police => show_police w
  | Fire => show_fire w
  | Shelter => show_shelter w
  | Unknown => false
  end.

(** [e => ({id: e.id, lat: e.lat, lon: e.lon, tags: e.tags || {}})] *)
Definition copy_element (e : element) : element :=
  Element (id e) (lat e) (lon e) (js_or (tags e) (JObj ∅)).

(** [p => ({...p, type: classify(p)})] *)
Definition with_type (p : element) : result (element * category) :=
  t ← classify p; mret (p, t).

(** [elements.map(...).map(...).filter(p => okTypes.includes(p.type))] *)
Definition select_places (okTypes : list category) (elems : list element)
  : result (list (element * category)) :=
  ps ← mapM with_type (map copy_element elems);
  mret (filter (fun p => p.2 ∈ okTypes) ps).

(** [p => p.dist = haversine(myLat, myLon, p.lat, p.lon)] *)
Definition with_dist (myLat myLon : R) (p : element * category) : place :=
  Place p.1 p.2 (haversine myLat myLon (lat p.1) (lon p.1)).

(** The [forEach] and the [sort] of lines 183-184. *)
Definition rank_places (myLat myLon : R) (ps : list (element * category))
  : list place :=
  array_sort (fun a b => p_dist a - p_dist b)%R (map (with_dist myLat myLon) ps).

(** [icons[type] || icons.shelter] *)
Definition icon_for (type : category) : icon :=
  match type with
  | Hospital => IconHospital
  | Police => IconPolice
  | Fire => IconFire
  | Shelter => IconShelter
  | Unknown => IconShelter
  end.

(** [tags.name || (tags.amenity || 'Unnamed')] *)
Definition marker_name (tags : jsval) : result jsval :=
  n ← get_prop tags "name";
  if truthy n then mret n
  else a ← get_prop tags "amenity"; mret (js_or a (JStr "Unnamed")).

(** [marker.bindPopup(...).on('click', ...)] on the marker added last. *)
Definition bind_last (popup : jsval * category * R) (dest : R * R)
  (ms : list marker) : list marker :=
  match reverse ms with
  | [] => []
  | m :: before =>
      reverse before ++ [Marker (m_lat m) (m_lon m) (m_icon m) (Some popup) (Some dest)]
  end.

(** The body of the [forEach] of lines 186-191. *)
Definition show_place (myLat myLon : R) (p : place) : M unit :=
  let e := p_elem p in
  modify (fun w =>
    set_placeMarkers
      (placeMarkers w ++ [Marker (lat e) (lon e) (icon_for (p_type p)) None None]) w);;
  name ← lift (marker_name (tags e));
  modify (fun w =>
    set_placeMarkers
      (bind_last (name, p_type p, p_dist p) (lat e, lon e) (placeMarkers w)) w);;
  addPlaceToList p myLat myLon.

(** Up to the [await] inside [fetchNearby].  The value is [None] when the
    guard returns, and else the [latlng] that is carried over the
    suspension. *)
Definition scanNearby_call : M (option latlng) :=
  clearPlaces;;
  me ← gets meMarker;
  match me with
  | None => setStatus [Lit "No location yet"];; mret None
  | Some latlng =>
      value ← gets radiusInput;
      let radius := radius_of value in
      fetchNearby_call (ll_lat latlng) (ll_lng latlng) radius;;
      mret (Some latlng)
  end.

(** From the value of [await fetchNearby(...)] to the end. *)
Definition scanNearby_rest (latlng : latlng) (elems : list element) : M unit :=
  if bool_decide (length elems = 0) then setStatus [Lit "No places found in radius"]
  else
    okTypes ← gets okTypes_of;
    let myLat := ll_lat latlng in
    let myLon := ll_lng latlng in
    selected ← lift (select_places okTypes elems);
    if bool_decide (length selected = 0)
    then setStatus [Lit "No selected-type places found"]
    else
      let places := rank_places myLat myLon selected in
      forEach places (show_place myLat myLon);;
      setStatus [Lit "Found "; Num (INR (length places)); Lit " place(s)"].

(** The segment run when [fetch] settles. *)
Definition scanNearby_fetched (latlng : latlng)
  (res : result (response overpass_data)) : M (stop unit) :=
  r ← fetchNearby_fetched res;
  match r with
  | Finished elems => scanNearby_rest latlng elems;; mret (Finished ())
  | Awaiting => mret Awaiting
  end.

(** The segment run when [res.json()] settles. *)
Definition scanNearby_parsed (latlng : latlng) (json : result overpass_data)
  : M unit :=
  elems ← fetchNearby_parsed json;
  scanNearby_rest latlng elems.

(** A discovery cycle whose segments run with nothing in between. *)
Definition scanNearby_run (res : result (response overpass_data)) : M unit :=
  k ← scanNearby_call;
  match k with
  | None => mret ()
  | Some latlng =>
      r ← scanNearby_fetched latlng res;
      match r, res with
      | Awaiting, Ok resp => scanNearby_parsed latlng (resp_json resp)
      | _, _ => mret ()
      end
  end.

(** ** The selection coordinator

    The coordinator is the page together with the [routeTo] calls that are
    suspended, oldest first, each at its first or its second [await].  Its
    commands are the selection of a destination (a click on a list item or
    a marker), the clear button, and the settling of what the [i]-th
    suspended call awaits.  The route slot is the variable [routeLayer], as
    the guards of the code read it; the route on display is [mapLayers]. *)

Inductive stage : Type := AtFetch | AtJson.

Record coordinator : Type := Coordinator {
  page : world;
  inflight : list stage
}.

Inductive command : Type :=
  | SelectDestination (destLat destLon : R)
  | ClearRoute
  | FetchSettles (i : nat) (res : result (response osrm_data))
  | JsonSettles (i : nat) (json : result osrm_data).

Definition handle (c : coordinator) (cmd : command) : coordinator :=
  match cmd with
  | SelectDestination destLat destLon =>
      match routeTo_call destLat destLon (page c) with
      | (Ok Awaiting, w) => Coordinator w (inflight c ++ [AtFetch])
      | (_, w) => Coordinator w (inflight c)
      end
  | ClearRoute => Coordinator (exec clearRoute_click (page c)) (inflight c)
  | FetchSettles i res =>
      match inflight c !! i with
      | Some AtFetch =>
          match routeTo_fetched res (page c) with
          | (Ok Awaiting, w) => Coordinator w (<[i := AtJson]> (inflight c))
          | (_, w) => Coordinator w (delete i (inflight c))
          end
      | _ => c
      end
  | JsonSettles i json =>
      match inflight c !! i with
      | Some AtJson =>
          Coordinator (exec (routeTo_parsed json) (page c))
            (delete i (inflight c))
      | _ => c
      end
  end.

Definition run (cmds : list command) (c : coordinator) : coordinator :=
  foldl handle c cmds.

Inductive phase : Type := Idle | Requesting | Active.

(** The state of the coordinator: Requesting while a call is suspended;
    else Idle when the slot is empty and no route is on the map, Active
    when the map shows the layer of the slot; no state otherwise. *)
Definition phase_of (c : coordinator) : option phase :=
  match inflight c with
  | _ :: _ => Some Requesting
  | [] =>
      match routeLayer (page c), mapLayers (page c) with
      | None, [] => Some Idle
      | Some l, [l'] =>
          if decide (layer_id l = layer_id l') then Some Active else None
      | _, _ => None
      end
  end.

(** ** Runs of the page

    One step is one run-to-completion segment: a callback of the position
    watch, a click handler, or the resumption of a suspended async
    function with what the network gave.  The relation does not track which
    calls are suspended: a resumption may take any answer at any time, which
    covers every interleaving the event loop allows. *)
Inductive step : world -> world -> Prop :=
  | step_position lat lon accuracy w :
      step w (exec (on_position lat lon accuracy) w)
  | step_geo_error message w :
      step w (exec (on_geo_error message) w)
  | step_locate w :
      step w (exec locate_click w)
  | step_scan_call w :
      step w (exec scanNearby_call w)
  | step_scan_fetched latlng res w :
      step w (exec (scanNearby_fetched latlng res) w)
  | step_scan_parsed latlng json w :
      step w (exec (scanNearby_parsed latlng json) w)
  | step_item_click it w :
      step w (exec (item_click it) w)
  | step_route_call destLat destLon w :
      step w (exec (routeTo_call destLat destLon) w)
  | step_route_fetched res w :
      step w (exec (routeTo_fetched res) w)
  | step_route_parsed json w :
      step w (exec (routeTo_parsed json) w)
  | step_clear w :
      step w (exec clearRoute_click w)
  | step_type_radius value w :
      step w (set_radiusInput value w)
  | step_check h p f s w :
      step w (set_shows h p f s w).

(** The route slot is a singleton: the map shows no route, or exactly the
    layer the slot holds. *)
Definition route_inv (w : world) : Prop :=
  mapLayers w = [] ∨ ∃ l, routeLayer w = Some l ∧ mapLayers w = [l].

(** The world once the page is loaded: no position, no route, nothing
    listed, an empty radius field and the four boxes checked. *)
Definition world0 : world :=
  World None [] None [] ViewInitial [] [] EmptyString true true true true 0 [].

(** Sample worlds, each the outcome of a run from [world0]: a position
    has arrived; then a route to a place was requested and found; or then a
    discovery cycle listed one hospital. *)
Definition world_located : world := exec (on_position 20 78 10) world0.

Definition sample_route : osrm_data :=
  OsrmData (Some [OsrmRoute (JObj {["type" := JStr "LineString"]}) 1200 90]).

Definition world_routed : world :=
  exec (routeTo_parsed (Ok sample_route))
    (exec (routeTo_fetched (Ok (Response 200 (Ok sample_route))))
       (exec (routeTo_call 20.001 78.001) world_located)).

Definition sample_hospital : element :=
  Element (JNum 1) 20.001 78.001 (JObj {["amenity" := JStr "hospital"]}).

Definition world_listed : world :=
  exec (scanNearby_parsed (LatLng 20 78)
          (Ok (OverpassData (Some [sample_hospital]))))
    (exec (scanNearby_fetched (LatLng 20 78)
             (Ok (Response 200 (Ok (OverpassData (Some [sample_hospital]))))))
       (exec scanNearby_call world_located)).

(** ** Definitions that follow the specification's words *)

(** The category of an element, [Unknown] standing in for a classification
    that throws. *)
Definition category_of (e : element) : category :=
  match classify e with
  | Ok c => c
  | Throw _ => Unknown
  end.

(** The precedence order of the data model, on a mapping from strings to
    strings: amenity=hospital, then amenity=police, then
    amenity=fire_station, then emergency=shelter or amenity=shelter, else
    unknown. *)
Definition classify_by_precedence (rawTags : gmap string string) : category :=
  if decide (rawTags !! "amenity" = Some "hospital") then Hospital
  else if decide (rawTags !! "amenity" = Some "police") then Police
  else if decide (rawTags !! "amenity" = Some "fire_station") then Fire
  else if decide (rawTags !! "emergency" = Some "shelter"
                  ∨ rawTags !! "amenity" = Some "shelter") then Shelter
  else Unknown.

(** A value that is a mapping. *)
Definition is_mapping (v : jsval) : bool :=
  match v with
  | JObj _ => true
  | _ => false
  end.

(** DiscoveryError(status | message): the error of a settled [fetch], if
    it is one. *)
Definition discovery_error (res : result (response overpass_data))
  : option text :=
  match res with
  | Throw message => Some message
  | Ok r =>
      if resp_ok r then None
      else Some [Lit "Overpass error "; Num (IZR (resp_status r))]
  end.

(** The sequence a discovery call hands to its caller. *)
Definition discovered (res : result (response overpass_data)) : list element :=
  match res with
  | Ok r =>
      if resp_ok r
      then match resp_json r with
           | Ok data => default [] (elements data)
           | Throw _ => []
           end
      else []
  | Throw _ => []
  end.

(** The item [scanNearby] lists for a ranked place. *)
Definition item_of (myLat myLon : R) (p : place) : result_item :=
  let e := p_elem p in
  ResultItem (p_type p)
    (match list_name (tags e) with Ok n => n | Throw _ => JUndefined end)
    (haversine myLat myLon (lat e) (lon e)) (lat e) (lon e) (lat e, lon e).

(** The marker [scanNearby] puts on the map for a ranked place. *)
Definition marker_of (p : place) : marker :=
  let e := p_elem p in
  Marker (lat e) (lon e) (icon_for (p_type p))
    (Some (match marker_name (tags e) with Ok n => n | Throw _ => JUndefined end,
           p_type p, p_dist p))
    (Some (lat e, lon e)).

(** ** The page with its suspended calls

    The page together with the calls that are suspended at an [await],
    oldest first: [routeTo] at its first or second [await], [scanNearby]
    inside [fetchNearby] at its first or second [await] with the position it
    has read.  An event is a callback of the position watch, a click, a
    change of the form, or the settling of what the [i]-th suspended call
    awaits; a click on the [i]-th list item or marker does nothing when there
    is none, and a settling that does not fit the [i]-th call does
    nothing. *)

Inductive task : Type :=
  | RouteAtFetch
  | RouteAtJson
  | ScanAtFetch (p : latlng)
  | ScanAtJson (p : latlng).

Record session : Type := Session {
  shown : world;
  tasks : list task
}.

Inductive event : Type :=
  | Located (lat lon accuracy : R)
  | LocateFailed (message : string)
  | ClickLocate
  | ClickScan
  | ClickClearRoute
  | ClickItem (i : nat)
  | ClickMarker (i : nat)
  | TypeRadius (value : string)
  | SetBoxes (h p f s : bool)
  | ScanFetched (i : nat) (res : result (response overpass_data))
  | ScanParsed (i : nat) (json : result overpass_data)
  | RouteFetched (i : nat) (res : result (response osrm_data))
  | RouteParsed (i : nat) (json : result osrm_data).

(** A call of [routeTo] and the task it leaves, if it is suspended. *)
Definition start_route (m : M (stop unit)) (a : session) : session :=
  match m (shown a) with
  | (Ok Awaiting, w) => Session w (tasks a ++ [RouteAtFetch])
  | (_, w) => Session w (tasks a)
  end.

Definition dispatch (a : session) (ev : event) : session :=
  match ev with
  | Located lat lon accuracy =>
      Session (exec (on_position lat lon accuracy) (shown a)) (tasks a)
  | LocateFailed message => Session (exec (on_geo_error message) (shown a)) (tasks a)
  | ClickLocate => Session (exec locate_click (shown a)) (tasks a)
  | ClickScan =>
      match scanNearby_call (shown a) with
      | (Ok (Some p), w) => Session w (tasks a ++ [ScanAtFetch p])
      | (_, w) => Session w (tasks a)
      end
  | ClickClearRoute => Session (exec clearRoute_click (shown a)) (tasks a)
  | ClickItem i =>
      match results (shown a) !! i with
      | Some it => start_route (item_click it) a
      | None => a
      end
  | ClickMarker i =>
      match placeMarkers (shown a) !! i with
      | Some (Marker _ _ _ _ (Some dest)) => start_route (routeTo_call dest.1 dest.2) a
      | _ => a
      end
  | TypeRadius value => Session (set_radiusInput value (shown a)) (tasks a)
  | SetBoxes h p f s => Session (set_shows h p f s (shown a)) (tasks a)
  | ScanFetched i res =>
      match tasks a !! i with
      | Some (ScanAtFetch p) =>
          match scanNearby_fetched p res (shown a) with
          | (Ok Awaiting, w) => Session w (<[i := ScanAtJson p]> (tasks a))
          | (_, w) => Session w (delete i (tasks a))
          end
      | _ => a
      end
  | ScanParsed i json =>
      match tasks a !! i with
      | Some (ScanAtJson p) =>
          Session (exec (scanNearby_parsed p json) (shown a)) (delete i (tasks a))
      | _ => a
      end
  | RouteFetched i res =>
      match tasks a !! i with
      | Some RouteAtFetch =>
          match routeTo_fetched res (shown a) with
          | (Ok Awaiting, w) => Session w (<[i := RouteAtJson]> (tasks a))
          | (_, w) => Session w (delete i (tasks a))
          end
      | _ => a
      end
  | RouteParsed i json =>
      match tasks a !! i with
      | Some RouteAtJson =>
          Session (exec (routeTo_parsed json) (shown a)) (delete i (tasks a))
      | _ => a
      end
  end.

(** The page after the events, from the loaded page. *)
Definition play (evs : list event) : session := foldl dispatch (Session world0 []) evs.

(** The [i]-th marker and the [i]-th list item show the same place. *)
Definition same_place (m : marker) (it : result_item) : Prop :=
  m_lat m = item_lat it ∧ m_lon m = item_lon it
  ∧ m_icon m = icon_for (item_type it)
  ∧ m_popup m = Some (item_name it, item_type it, item_dist it)
  ∧ m_dest m = Some (item_dest it)
  ∧ item_dest it = (item_lat it, item_lon it)
  ∧ item_type it ≠ Unknown.

(** RoutingError(status | message): the error of a settled [fetch] of
    [routeTo], if it is one. *)
Definition routing_error (res : result (response osrm_data)) : option text :=
  match res with
  | Throw message => Some message
  | Ok r =>
      if resp_ok r then None
      else Some [Lit "Routing error "; Num (IZR (resp_status r))]
  end.

(** What holds of the page as long as no position has arrived: no call is
    suspended, no request was sent, and no place and no route is shown. *)
Definition nothing_yet (a : session) : Prop :=
  tasks a = [] ∧ sent (shown a) = [] ∧ results (shown a) = []
  ∧ placeMarkers (shown a) = [] ∧ routeLayer (shown a) = None
  ∧ mapLayers (shown a) = [].

(** The position an event brings, if it is a position callback. *)
Definition position_of (ev : event) : option latlng :=
  match ev with
  | Located lat lon _ => Some (LatLng lat lon)
  | _ => None
  end.

(** ** The distance and the sort in double precision (script.js 58-66, 183-184)

    The same lines read over binary64 floats, for what depends on the
    rounding of doubles and on NaN.  The arithmetic and [Math.sqrt] are
    those of IEEE 754.  [Math.sin], [Math.cos] and [Math.atan2] are fixed by
    the language on NaN, on the infinities and on zero, and left to the
    platform elsewhere: a [platform] gives them there. *)

Record platform : Type := Platform {
  sin_of : float -> float;
  cos_of : float -> float;
  atan2_of : float -> float -> float
}.

Definition Math_sin (pf : platform) (x : float) : float :=
  if is_nan x || is_zero x then x
  else if is_infinity x then nan
  else sin_of pf x.

Definition Math_cos (pf : platform) (x : float) : float :=
  if is_nan x || is_infinity x then nan
  else if is_zero x then 1%float
  else cos_of pf x.

Definition Math_atan2 (pf : platform) (y x : float) : float :=
  if is_nan y || is_nan x then nan else atan2_of pf y x.

Definition Math_PI : float := 0x1.921fb54442d18p+1%float.

Definition toRad_double (x : float) : float := (x * Math_PI / 180)%float.

Definition haversine_double (pf : platform) (lat1 lon1 lat2 lon2 : float)
  : float :=
  let R := 6371000%float in
  let dLat := toRad_double (lat2 - lat1) in
  let dLon := toRad_double (lon2 - lon1) in
  let a := (Math_sin pf (dLat / 2) * Math_sin pf (dLat / 2)
            + Math_cos pf (toRad_double lat1) * Math_cos pf (toRad_double lat2)
              * Math_sin pf (dLon / 2) * Math_sin pf (dLon / 2))%float in
  let c := (2 * Math_atan2 pf (PrimFloat.sqrt a) (PrimFloat.sqrt (1 - a)))%float in
  (R * c)%float.

(** [l.sort(cmp)] on doubles: [a] goes after [b] when [cmp(a, b) > 0], and
    a comparison that gives NaN moves nothing.  For a comparator that is
    not consistent the language leaves the order to the engine; this is the
    order of an insertion from the right. *)
Definition array_sort_double {A} (cmp : A -> A -> float) (l : list A)
  : list A :=
  stable_sort (fun a b => (0 <? cmp a b)%float) l.

(** A place of lines 183-184: its coordinates and its [dist]. *)
Record place_double : Type := PlaceDouble {
  pd_lat : float;
  pd_lon : float;
  pd_dist : float
}.

(** [places.forEach(p => p.dist = haversine(myLat, myLon, p.lat, p.lon))]
    and [places.sort((a, b) => a.dist - b.dist)]. *)
Definition rank_double (pf : platform) (myLat myLon : float)
    (ps : list (float * float)) : list place_double :=
  array_sort_double (fun a b => (pd_dist a - pd_dist b)%float)
    (map (fun p => PlaceDouble p.1 p.2
                     (haversine_double pf myLat myLon p.1 p.2)) ps).


(** A platform for the examples: at the arguments that arise between the
    point (36.97, 78) and its antipode, the sines and cosines correctly
    rounded; elsewhere the values for small angles. *)
Definition sample_platform : platform :=
  Platform
    (fun x =>
       if (x =? 0.6452482244623036)%float then 0.6013967761004443%float
       else if (x =? -0.6452482244623036)%float
       then (-0.6013967761004443)%float
       else if (x =? 1.5707963267948966)%float then 1%float
       else if (x =? -1.5707963267948966)%float then (-1)%float
       else x)
    (fun x =>
       if (abs x =? 0.6452482244623036)%float then 0.7989505101669265%float
       else 1%float)
    (fun y x => y).

(** ** The seeding script: [generateReports] (script.js 1032-1072)

    The generated documents are abstract: [new_report i] stands for the
    reference and the report that iteration [i] builds.  [count] is a
    natural number.  A batch commit writes all the documents of the batch or
    none; [commit_ok k] tells whether the [k]-th commit of the run, counted
    from 0, is accepted.  A rejected commit rejects the [await], which
    nothing catches. *)

Definition BATCH_LIMIT : nat := 500.

Record seeding (doc : Type) : Type := Seeding {
  batch : list doc;            (* the writes queued in [batch] *)
  counter : nat;
  committed : list (list doc)  (* the batches written, oldest first *)
}.
Arguments Seeding {doc} batch counter committed.
Arguments batch {doc} s.
Arguments counter {doc} s.
Arguments committed {doc} s.

(** How a run ends, with the state it ends in. *)
Inductive outcome (A : Type) : Type :=
  | Resolved (a : A)
  | Rejected (a : A).
Arguments Resolved {A} a.
Arguments Rejected {A} a.

Definition and_then {A : Type} (r : outcome A) (k : A -> outcome A)
  : outcome A :=
  match r with
  | Resolved a => k a
  | Rejected a => Rejected a
  end.

Section Seed.
Context {doc : Type} (new_report : nat -> doc) (commit_ok : nat -> bool).

(** [await batch.commit()] *)
Definition commit (s : seeding doc) : outcome (seeding doc) :=
  if commit_ok (length (committed s))
  then Resolved (Seeding (batch s) (counter s) (committed s ++ [batch s]))
  else Rejected s.

(** The body of the [for] loop at index [i]. *)
Definition loop_body (i : nat) (s : seeding doc) : outcome (seeding doc) :=
  let s1 := Seeding (batch s ++ [new_report i]) (S (counter s))
                    (committed s) in
  if decide (counter s1 mod BATCH_LIMIT = 0) then
    and_then (commit s1) (fun s2 =>
      Resolved (Seeding [] (counter s2) (committed s2)))
  else Resolved s1.

(** [n] more iterations from index [i]. *)
Fixpoint loop (n i : nat) (s : seeding doc) : outcome (seeding doc) :=
  match n with
  | O => Resolved s
  | S n' => and_then (loop_body i s) (loop n' (S i))
  end.

Definition generateReports (count : nat) : outcome (seeding doc) :=
  and_then (loop count 0 (Seeding [] 0 [])) (fun s =>
    if decide (counter s mod BATCH_LIMIT ≠ 0) then commit s else Resolved s).

End Seed.


(** What holds of the store during a run: only full batches are written,
    they hold the first reports in order, and every commit so far was
    accepted. *)
Definition written_inv {doc : Type} (new_report : nat -> doc)
    (commit_ok : nat -> bool) (s : seeding doc) : Prop :=
  Forall (fun b => length b = BATCH_LIMIT) (committed s) ∧
  concat (committed s)
  = map new_report (seq 0 (BATCH_LIMIT * length (committed s))) ∧
  ∀ j, j < length (committed s) -> commit_ok j = true.

(** The loop invariant at index [i]. *)
Definition seed_inv {doc : Type} (new_report : nat -> doc)
    (commit_ok : nat -> bool) (i : nat) (s : seeding doc) : Prop :=
  written_inv new_report commit_ok s ∧
  counter s = i ∧
  length (committed s) = i / BATCH_LIMIT ∧
  batch s = map new_report (seq (BATCH_LIMIT * (i / BATCH_LIMIT))
                                (i mod BATCH_LIMIT)).


(** ** The chat window: [sendMessage] (script.js 885-935)

    The children of [chatBody] are [bubble]s.  The window's scroll position
    is not part of the model.  A request is settled by the outcome of
    [fetch(...).then(res => res.json())]: the decoded body, or the message
    of the error that rejected either promise. *)











      (* the request number [i] among those in flight settles *)






(** ** The side bar (script.js 512-534)

    The page is taken to hold the side bar, the overlay and the toggle
    button.  A class list is the set of its class names. *)

Record drawer : Type := Drawer {
  sidebar : gset string;           (* sidebar.classList *)
  overlay : gset string;           (* overlay.classList *)
  aria_expanded : option string    (* the attribute of toggleBtn *)
}.

(** [l.toggle(cls)]: the new list and the value returned. *)
Definition classList_toggle (cls : string) (l : gset string)
  : gset string * bool :=
  if decide (cls ∈ l) then (l ∖ {[cls]}, false) else (l ∪ {[cls]}, true).

(** [String(b)] *)
Definition String_of_bool (b : bool) : string :=
  if b then "true" else "false".

Definition toggleBtn_click (d : drawer) : drawer :=
  let '(sidebar', isActive) := classList_toggle "active" (sidebar d) in
  let '(overlay', _) := classList_toggle "active" (overlay d) in
  Drawer sidebar' overlay' (Some (String_of_bool isActive)).

Definition overlay_click (d : drawer) : drawer :=
  Drawer (sidebar d ∖ {["active"]}) (overlay d ∖ {["active"]})
         (Some "false").

Inductive drawer_event : Type := ToggleClicked | OverlayClicked.

Definition drawer_dispatch (d : drawer) (ev : drawer_event) : drawer :=
  match ev with
  | ToggleClicked => toggleBtn_click d
  | OverlayClicked => overlay_click d
  end.

(** ** The welcome popup (script.js 537-550) *)

Record popup_element : Type := PopupElement {
  style_display : option string;
  aria_hidden : option string
}.

Record welcome : Type := Welcome {
  popup : option popup_element;          (* [None]: no such element *)
  sessionStorage : gmap string string
}.

Definition hidePopup (perList : bool) (w : welcome) : welcome :=
  match popup w with
  | None => w
  | Some _ =>
      Welcome (Some (PopupElement (Some "none") (Some "true")))
              (if perList
               then <["respondr_seen_popup" := "1"]> (sessionStorage w)
               else sessionStorage w)
  end.

(** The script as it runs when the page is loaded. *)
Definition popup_load (el : option popup_element)
    (storage : gmap string string) : welcome :=
  let w := Welcome el storage in
  match storage !! "respondr_seen_popup" with
  | Some v => if decide (v = EmptyString) then w else hidePopup false w
  | None => w
  end.

Inductive popup_event : Type :=
  | EnterClicked
  | CloseClicked
  | KeyDown (key : string).

Definition popup_dispatch (w : welcome) (ev : popup_event) : welcome :=
  match ev with
  | EnterClicked => hidePopup true w
  | CloseClicked => hidePopup false w
  | KeyDown key => if decide (key = "Escape") then hidePopup false w else w
  end.

(** A visit of the page in a browser tab: the popup element of the page
    and what the user does; the storage of the tab outlives the visit. *)
Definition visit (storage : gmap string string)
    (v : option popup_element * list popup_event) : gmap string string :=
  sessionStorage (foldl popup_dispatch (popup_load v.1 storage) v.2).

Definition browse (storage : gmap string string)
    (visits : list (option popup_element * list popup_event))
  : gmap string string :=
  foldl visit storage visits.

(** A visit in which the popup is dismissed with its Enter button. *)
Definition entered (v : option popup_element * list popup_event) : Prop :=
  is_Some v.1 ∧ EnterClicked ∈ v.2.


(** ** The announcement routes (unnamed/part_000 30-91)

    A document of the collection is a record of the fields the routes
    read and write; a field the document lacks is [JUndefined].  Its
    [createdAt] is a Firestore timestamp, which has a [toDate] method, or a
    plain value.  The two renderings of a date are left to the platform:
    [Timestamp_toISOString t] for [t.toDate().toISOString()] and
    [Date_toISOString v] for [new Date(v).toISOString()], which throws a
    RangeError on a value that is no date. *)

Inductive stored_time : Type :=
  | Timestamp (t : Z)
  | Field (v : jsval).

Record document : Type := Document {
  d_title : jsval;
  d_message : jsval;
  d_category : jsval;
  d_severity : jsval;
  d_reporterType : jsval;
  d_location : jsval;
  d_imageUrl : jsval;
  d_createdAt : stored_time
}.

(** An element of the array that [GET /] answers with. *)
Record announcement : Type := Announcement {
  a_id : string;
  a_title : jsval;
  a_message : jsval;
  a_category : jsval;
  a_severity : jsval;
  a_reporterType : jsval;
  a_location : jsval;
  a_imageUrl : jsval;
  a_createdAt : option string   (* [None] is null *)
}.

Inductive reply_body : Type :=
  | ErrorJson (error : string)             (* { error } *)
  | SuccessJson (message : string)         (* { success: true, message } *)
  | AnnouncementsJson (l : list announcement).

Record http_reply : Type := Reply {
  http_status : nat;
  http_body : reply_body
}.

Section Announcements.
Context (Timestamp_toISOString : Z -> string)
        (Date_toISOString : jsval -> result string).

Definition createdAtString (c : stored_time) : result (option string) :=
  match c with
  | Timestamp t => Ok (Some (Timestamp_toISOString t))
  | Field v =>
      if truthy v then s ← Date_toISOString v; Ok (Some s) else Ok None
  end.

(** The body of [snapshot.forEach(doc => ...)]: the element pushed. *)
Definition announcement_of (doc : string * document) : result announcement :=
  let '(doc_id, data) := doc in
  created ← createdAtString (d_createdAt data);
  Ok (Announcement doc_id (d_title data) (d_message data)
        (js_or (d_category data) (JStr "info"))
        (js_or (d_severity data) (JStr "low"))
        (js_or (d_reporterType data) (JStr "unknown"))
        (js_or (d_location data) JNull)
        (js_or (d_imageUrl data) JNull)
        created).

(** [GET /]; [snapshot] is what the ordered query gives, or the message of
    its rejection. *)
Definition get_announcements (snapshot : result (list (string * document)))
  : http_reply :=
  match docs ← snapshot; mapM announcement_of docs with
  | Ok announcements => Reply 200 (AnnouncementsJson announcements)
  | Throw _ => Reply 500 (ErrorJson "Failed to fetch announcements")
  end.

End Announcements.

(** [POST /] on the collection [coll]; [added] is what [add] does: [None]
    when it is rejected, else the id and the server time that the store
    gives the new document. *)
Definition post_announcement (body : jsval) (added : option (string * Z))
    (coll : list (string * document))
  : http_reply * list (string * document) :=
  match
    title ← get_prop body "title";
    message ← get_prop body "message";
    category ← get_prop body "category";
    severity ← get_prop body "severity";
    reporterType ← get_prop body "reporterType";
    location ← get_prop body "location";
    imageUrl ← get_prop body "imageUrl";
    Ok (title, message, category, severity, reporterType, location, imageUrl)
  with
  | Throw _ => (Reply 500 (ErrorJson "Failed to add announcement"), coll)
  | Ok (title, message, category, severity, reporterType, location,
        imageUrl) =>
      if negb (truthy title) || negb (truthy message) then
        (Reply 400 (ErrorJson "Title and message are required"), coll)
      else
        match added with
        | Some (new_id, now) =>
            (Reply 201 (SuccessJson "Announcement added"),
             coll ++ [(new_id,
                       Document title message
                         (js_or category (JStr "info"))
                         (js_or severity (JStr "low"))
                         (js_or reporterType (JStr "unknown"))
                         (js_or location JNull)
                         (js_or imageUrl JNull)
                         (Timestamp now))])
        | None => (Reply 500 (ErrorJson "Failed to add announcement"), coll)
        end
  end.

(** The collection after a series of [POST /] requests on an empty one. *)
Definition post_all (reqs : list (jsval * option (string * Z)))
  : list (string * document) :=
  foldl (fun coll r => (post_announcement r.1 r.2 coll).2) [] reqs.

(** A document shown with the values it stores. *)
Definition as_stored (Timestamp_toISOString : Z -> string)
    (doc : string * document) : announcement :=
  Announcement doc.1 (d_title doc.2) (d_message doc.2) (d_category doc.2)
    (d_severity doc.2) (d_reporterType doc.2) (d_location doc.2)
    (d_imageUrl doc.2)
    (match d_createdAt doc.2 with
     | Timestamp t => Some (Timestamp_toISOString t)
     | Field _ => None
     end).

(** What [POST /] guarantees of a document it adds. *)
Definition posted (d : document) : Prop :=
  truthy (d_title d) = true ∧ truthy (d_message d) = true ∧
  truthy (d_category d) = true ∧ truthy (d_severity d) = true ∧
  truthy (d_reporterType d) = true ∧
  (truthy (d_location d) = true ∨ d_location d = JNull) ∧
  (truthy (d_imageUrl d) = true ∨ d_imageUrl d = JNull) ∧
  ∃ t, d_createdAt d = Timestamp t.


(** ** The drill form (script.js 485-500)

    The values of the form's fields are abstract; [checkValidity] is the
    browser's check of them and [defaults] the values [form.reset()] puts
    back. *)

Record drill_form (V : Type) : Type := DrillForm {
  form_values : V;
  form_classList : gset string;
  alerts : list string             (* the texts shown by [alert] *)
}.
Arguments DrillForm {V} form_values form_classList alerts.
Arguments form_values {V} d.
Arguments form_classList {V} d.
Arguments alerts {V} d.

(** The [submit] listener: the form after it, and whether the event's
    default action, sending the form, was prevented. *)
Definition drillForm_submit {V : Type} (checkValidity : V -> bool)
    (defaults : V) (f : drill_form V) : drill_form V * bool :=
  let '(f1, defaultPrevented) :=
    if negb (checkValidity (form_values f)) then (f, true)
    else
      (DrillForm defaults (form_classList f ∖ {["was-validated"]})
         (alerts f ++ ["Thank you for scheduling a drill! We will contact you shortly to confirm the details."]),
       true) in
  (DrillForm (form_values f1) (form_classList f1 ∪ {["was-validated"]})
     (alerts f1),
   defaultPrevented).


(** * Properties *)

(** Unfolds the operations of [M] and runs the computation. *)
Ltac run_M :=
  unfold exec, clearPlaces, fetchNearby_call, fetch, setStatus, removeLayer,
    geoJSON_addTo, try_catch, throw, lift, modify, gets, mbind, M_bind, mret,
    M_ret;
  simpl.

(** ** The sample worlds *)

(** The sample worlds are worlds the page reaches. *)
Lemma world_located_reachable : rtc step world0 world_located.
Proof. eapply rtc_l; [|apply rtc_refl]. apply step_position. Qed.

Lemma world_routed_reachable : rtc step world0 world_routed.
Proof.
  eapply rtc_r; [eapply rtc_r; [eapply rtc_r|]|];
    [apply world_located_reachable|apply step_route_call
    |apply step_route_fetched|apply step_route_parsed].
Qed.

Lemma world_listed_reachable : rtc step world0 world_listed.
Proof.
  eapply rtc_r; [eapply rtc_r; [eapply rtc_r|]|];
    [apply world_located_reachable|apply step_scan_call
    |apply step_scan_fetched|apply step_scan_parsed].
Qed.

(** ** Facts on the sort *)

Section SortFacts.
Context {A : Type} (key : A -> R).

Let after (a b : A) : bool := bool_decide (0 < key a - key b)%R.

Lemma insert_sorted_perm x l : insert_sorted after x l ≡ₚ x :: l.
Proof.
  induction l as [|y l IH]; simpl; [done|].
  destruct (after x y); [|done].
  rewrite IH. apply Permutation_swap.
Qed.

Lemma stable_sort_perm l : stable_sort after l ≡ₚ l.
Proof.
  induction l as [|x l IH]; simpl; [done|].
  rewrite insert_sorted_perm. by rewrite IH.
Qed.

End SortFacts.

(** ** Classification *)

Lemma js_or_obj_not_nullish v :
  js_or v (JObj ∅) ≠ JUndefined ∧ js_or v (JObj ∅) ≠ JNull.
Proof.
  unfold js_or. destruct (truthy v) eqn:E; [|done].
  by destruct v.
Qed.

Lemma get_prop_total v k :
  v ≠ JUndefined -> v ≠ JNull -> ∃ x, get_prop v k = Ok x.
Proof. destruct v; simpl; intros; try done; eauto. Qed.

Lemma get_prop_not_mapping v k :
  is_mapping v = false -> v ≠ JUndefined -> v ≠ JNull ->
  get_prop v k = Ok JUndefined.
Proof. destruct v; simpl; intros; done. Qed.

Lemma classify_total e : ∃ c, classify e = Ok c.
Proof.
  unfold classify.
  destruct (js_or_obj_not_nullish (tags e)) as [Hu Hn].
  destruct (get_prop_total _ "amenity" Hu Hn) as [a ->].
  destruct (get_prop_total _ "emergency" Hu Hn) as [em ->].
  simpl. repeat case_match; eauto.
Qed.

Lemma classify_category_of e : classify e = Ok (category_of e).
Proof. unfold category_of. by destruct (classify_total e) as [c ->]. Qed.

Lemma strict_eq_str_fmap (m : gmap string string) k lit :
  strict_eq_str (default JUndefined ((JStr <$> m) !! k)) lit
  = bool_decide (m !! k = Some lit).
Proof.
  rewrite lookup_fmap. destruct (m !! k) as [s|].
  - change (strict_eq_str (default JUndefined (JStr <$> Some s)) lit)
      with (if decide (s = lit) then true else false).
    destruct (decide (s = lit)); case_bool_decide; congruence.
  - by case_bool_decide.
Qed.

(** C2: classification is a total, deterministic function of the tag
    mapping.  For every mapping from strings to strings, [classify] returns
    (never throws) the one category the precedence order gives: hospital for
    amenity=hospital, else police for amenity=police, else fire for
    amenity=fire_station, else shelter for emergency=shelter or
    amenity=shelter, else unknown; no other category is returned. *)
Theorem classify_precedence_total (i : jsval) (la lo : R)
  (rawTags : gmap string string) :
  let e := Element i la lo (JObj (JStr <$> rawTags)) in
  classify e = Ok (classify_by_precedence rawTags)
  ∧ (∀ c, classify e = Ok c -> c = classify_by_precedence rawTags)
  ∧ classify_by_precedence rawTags ∈ [Hospital; Police; Fire; Shelter; Unknown].
Proof.
  intros e.
  assert (classify e = Ok (classify_by_precedence rawTags)) as Hc.
  { unfold classify, classify_by_precedence, e, js_or.
    cbn [tags truthy get_prop mbind result_bind].
    rewrite !strict_eq_str_fmap.
    repeat (case_bool_decide; repeat case_decide; try done; try tauto). }
  split; [exact Hc|]. split.
  - intros c Hc'. congruence.
  - unfold classify_by_precedence. repeat case_decide; set_solver.
Qed.

Example classify_precedence_hospital_first :
  classify (Element (JNum 1) 0 0
    (JObj (<["emergency" := JStr "shelter"]> (<["amenity" := JStr "hospital"]> ∅))))
  = Ok Hospital.
Proof. reflexivity. Qed.

(** C9: [classify] never throws.  An element whose [tags] field is absent
    or is not a mapping is classified as unknown, exactly as the same
    element with an empty mapping for [tags]; and every element, whatever
    its tags, gets a category. *)
Theorem classify_malformed_unknown (e : element) :
  (∃ c, classify e = Ok c)
  ∧ (is_mapping (tags e) = false ->
     classify e = Ok Unknown
     ∧ classify e = classify (Element (id e) (lat e) (lon e) (JObj ∅))).
Proof.
  split; [apply classify_total|].
  intros Hm.
  assert (classify e = Ok Unknown) as ->; [|done].
  unfold classify, js_or.
  destruct (truthy (tags e)) eqn:Ht; [|done].
  assert (tags e ≠ JUndefined ∧ tags e ≠ JNull) as [Hu Hn].
  { by destruct (tags e). }
  by rewrite !get_prop_not_mapping.
Qed.

Lemma classify_malformed_unknown_witness :
  is_mapping (tags (Element (JNum 7) 20 78 JUndefined)) = false
  ∧ classify (Element (JNum 7) 20 78 JUndefined) = Ok Unknown
  ∧ classify (Element (JNum 7) 20 78 (JStr "x")) = Ok Unknown.
Proof.
  split; [reflexivity|]. split.
  - apply (classify_malformed_unknown (Element (JNum 7) 20 78 JUndefined)).
    reflexivity.
  - apply (classify_malformed_unknown (Element (JNum 7) 20 78 (JStr "x"))).
    reflexivity.
Defined.

(** ** The radius of a discovery cycle *)

Lemma digit_val_range radix c d :
  digit_val radix c = Some d -> (0 ≤ d < radix)%Z.
Proof.
  unfold digit_val. intros H.
  repeat (case_bool_decide || case_match); simplify_eq; lia.
Qed.

Lemma digits_value_nonneg radix s acc n :
  (0 < radix)%Z ->
  (∀ a, acc = Some a -> (0 ≤ a)%Z) ->
  digits_value radix s acc = Some n -> (0 ≤ n)%Z.
Proof.
  intros Hr. revert acc. induction s as [|c s IH]; simpl; intros acc Hacc H.
  - by apply Hacc.
  - destruct (digit_val radix c) as [d|] eqn:Hd; [|by apply Hacc].
    apply digit_val_range in Hd. eapply IH; [|exact H].
    intros a [= <-]. destruct acc as [a0|]; simpl.
    + specialize (Hacc a0 eq_refl). nia.
    + lia.
Qed.

Lemma strip_prefix_radix s : (0 < (strip_prefix s).1)%Z.
Proof. unfold strip_prefix. repeat case_match; simpl; lia. Qed.

Lemma strip_sign_plus s :
  (∀ r, s ≠ String "-" r) -> (strip_sign s).1 = 1%Z.
Proof.
  unfold strip_sign. intros Hminus.
  repeat case_match; subst; simpl; try done.
  by destruct (Hminus s0).
Qed.

Lemma mathInt_sign value n :
  mathInt value = Some n ->
  (∀ r, trim_start value ≠ String "-" r) -> (0 ≤ n)%Z.
Proof.
  unfold mathInt. intros H Hminus.
  apply strip_sign_plus in Hminus.
  destruct (strip_sign (trim_start value)) as [sign S1]. simpl in Hminus.
  pose proof (strip_prefix_radix S1) as Hr.
  destruct (strip_prefix S1) as [radix S2]. simpl in Hr.
  destruct (digits_value radix S2 None) as [m|] eqn:Hm; [|done].
  simpl in H. injection H as <-.
  assert (0 ≤ m)%Z; [|lia].
  eapply digits_value_nonneg; [exact Hr| |exact Hm]. done.
Qed.

Section Rounding.
Local Open Scope Z_scope.

(** The shape of [round53 m] when bits are rounded away. *)
Lemma round53_cases (m : Z) :
  0 < m ->
  round53 m = m
  ∨ ∃ k q r, 0 < k ∧ m = q * 2 ^ k + r ∧ 0 <= r < 2 ^ k ∧ 2 ^ 52 <= q
      ∧ (round53 m = q * 2 ^ k ∧ 2 * r <= 2 ^ k
         ∨ round53 m = (q + 1) * 2 ^ k ∧ 2 ^ k <= 2 * r).
Proof.
  intros Hm. unfold round53.
  destruct (Z.leb_spec (Z.log2 m - 52) 0) as [Hk|Hk]; [by left|right].
  set (k := Z.log2 m - 52) in *.
  pose proof (Z.log2_spec m Hm) as [Hlo Hhi].
  assert (0 < 2 ^ k) as HP by (apply Z.pow_pos_nonneg; lia).
  assert (2 ^ Z.log2 m = 2 ^ 52 * 2 ^ k) as Hpow.
  { rewrite <- Z.pow_add_r by lia. f_equal. lia. }
  assert (2 ^ k = 2 * 2 ^ (k - 1)) as Hhalf.
  { rewrite <- (Z.pow_succ_r 2 (k - 1)) by lia. f_equal. lia. }
  rewrite Z.shiftr_div_pow2, !Z.shiftl_mul_pow2 by lia.
  pose proof (Z.div_mod m (2 ^ k) ltac:(lia)) as Hdm.
  pose proof (Z.mod_pos_bound m (2 ^ k) HP) as Hr.
  set (q := m / 2 ^ k) in *. set (r := m mod 2 ^ k) in *.
  exists k, q, r.
  assert (2 ^ 52 <= q) as Hq.
  { apply Z.div_le_lower_bound; [done|]. lia. }
  split_and!; try lia.
  replace (m - q * 2 ^ k) with r by lia. rewrite Z.mul_1_l.
  destruct (Z.ltb_spec (2 ^ (k - 1)) r) as [Hlt|Hge]; cbn [orb].
  - right. lia.
  - destruct (Z.eqb_spec r (2 ^ (k - 1))) as [Heq|Hne]; cbn [andb].
    + destruct (Z.odd q); [right|left]; lia.
    + left. lia.
Qed.

(** Up to [2^53] every integer is a double. *)
Lemma round53_small (m : Z) : 0 <= m <= 2 ^ 53 -> round53 m = m.
Proof.
  intros [H0 H53].
  destruct (decide (m = 2 ^ 53)) as [->|Hne]; [by vm_compute|].
  unfold round53.
  destruct (Z.leb_spec (Z.log2 m - 52) 0) as [Hk|Hk]; [done|].
  assert (0 < m) as Hm
    by (destruct (decide (m = 0)) as [->|]; [by vm_compute in Hk|lia]).
  pose proof (Z.log2_spec m Hm) as [Hlo _].
  assert (2 ^ 53 <= 2 ^ Z.log2 m) by (apply Z.pow_le_mono_r; lia).
  lia.
Qed.

Lemma round53_pos (m : Z) : 0 < m -> 0 < round53 m.
Proof.
  intros Hm.
  destruct (round53_cases m Hm)
    as [->|(k & q & r & Hk & -> & Hr & Hq & H)]; [done|].
  assert (0 < 2 ^ k) by (apply Z.pow_pos_nonneg; lia).
  destruct H as [[-> _]|[-> _]]; nia.
Qed.

(** The rounding moves an integer by no more than half a unit of the last
    of its 53 leading bits. *)
Lemma round53_near (m : Z) : 0 <= m -> 2 ^ 53 * Z.abs (round53 m - m) <= m.
Proof.
  intros H0. destruct (decide (m = 0)) as [->|Hne]; [by vm_compute|].
  destruct (round53_cases m ltac:(lia))
    as [->|(k & q & r & Hk & -> & Hr & Hq & H)].
  { rewrite Z.sub_diag. simpl. lia. }
  assert (0 < 2 ^ k) by (apply Z.pow_pos_nonneg; lia).
  change (2 ^ 53) with (2 * 2 ^ 52).
  change (2 ^ 52) with 4503599627370496 in *.
  destruct H as [[-> ?]|[-> ?]]; nia.
Qed.

Lemma to_double_exact (n : Z) : Z.abs n <= 2 ^ 53 -> to_double n = Integer n.
Proof.
  intros Hn. unfold to_double. rewrite round53_small by lia.
  destruct (Z.leb_spec (2 ^ 1024) (Z.abs n)) as [Hbig|_].
  - assert (2 ^ 53 < 2 ^ 1024) by (apply Z.pow_lt_mono_r; lia). lia.
  - f_equal. lia.
Qed.

Lemma to_double_positive (n : Z) :
  0 < n ->
  to_double n = Infinite false ∨ ∃ z, to_double n = Integer z ∧ 0 < z.
Proof.
  intros Hn. unfold to_double.
  pose proof (round53_pos (Z.abs n) ltac:(lia)) as Hpos.
  destruct (Z.leb_spec (2 ^ 1024) (round53 (Z.abs n))) as [_|_].
  - left. f_equal. lia.
  - right. eexists. split; [done|]. nia.
Qed.

Lemma to_double_nonzero (n : Z) :
  n ≠ 0 -> to_double n ≠ NaN ∧ to_double n ≠ Integer 0.
Proof.
  intros Hn. unfold to_double.
  pose proof (round53_pos (Z.abs n) ltac:(lia)) as Hpos.
  destruct (Z.leb_spec (2 ^ 1024) (round53 (Z.abs n))) as [_|_];
    [done|].
  split; [done|]. intros [= H]. nia.
Qed.

Lemma to_double_near (n z : Z) :
  to_double n = Integer z -> 2 ^ 53 * Z.abs (z - n) <= Z.abs n.
Proof.
  unfold to_double.
  pose proof (round53_near (Z.abs n) ltac:(lia)) as Hnear.
  destruct (Z.leb_spec (2 ^ 1024) (round53 (Z.abs n))) as [_|_];
    [done|].
  intros [= <-].
  replace (Z.abs (Z.sgn n * round53 (Z.abs n) - n))
    with (Z.abs (round53 (Z.abs n) - Z.abs n)); [done|].
  destruct (Z.abs_spec n) as [[? ->]|[? ->]];
    destruct (Z.sgn_spec n) as [[? ->]|[[? ->]|[? ->]]]; try lia.
  - subst n. vm_compute. done.
Qed.

Lemma to_double_infinite (n : Z) (negative : bool) :
  to_double n = Infinite negative -> 2 ^ 1023 <= Z.abs n.
Proof.
  unfold to_double.
  pose proof (round53_near (Z.abs n) ltac:(lia)) as Hnear.
  destruct (Z.leb_spec (2 ^ 1024) (round53 (Z.abs n))) as [Hbig|_];
    [|done].
  intros _. change (2 ^ 1024) with (2 * 2 ^ 1023) in Hbig.
  assert (0 < 2 ^ 1023) by (apply Z.pow_pos_nonneg; lia).
  change (2 ^ 53) with 9007199254740992 in Hnear. lia.
Qed.

End Rounding.

Lemma scanNearby_call_located w p :
  meMarker w = Some p ->
  scanNearby_call w =
    (Ok (Some p),
     set_sent (sent w ++ [[Lit OVERPASS_API; Lit "?data=";
                           Enc (buildOverpassQuery (ll_lat p) (ll_lng p)
                                  (radius_of (radiusInput w)))]])
       (set_status [Lit "Status: "; Lit "Searching nearby..."]
          (set_results [] (set_placeMarkers [] w)))).
Proof.
  intros Hme. unfold scanNearby_call, clearPlaces, fetchNearby_call, fetch,
    setStatus, modify, gets, mbind, M_bind, mret, M_ret.
  simpl. rewrite Hme. reflexivity.
Qed.

(** C7, as the code has it: the radius a discovery cycle puts in the
    Overpass query is [parseInt] of the radius field, or 2000 when that is
    NaN or zero.  It is never NaN and never zero.  When [parseInt] reads an
    integer that is not zero (12 for [12px], not 2000), the radius is the
    double nearest to it: that integer itself up to 2^53, beyond it an
    integer no further from it than one part in 2^53, and an infinity only
    from 2^1023 on.  For every input that does not begin, after leading
    white space, with a minus sign, the radius is a positive integer or
    the positive infinity. *)
Theorem scan_radius_default (w : world) (p : latlng) :
  meMarker w = Some p ->
  let radius := radius_of (radiusInput w) in
  sent (exec scanNearby_call w)
    = sent w ++ [[Lit OVERPASS_API; Lit "?data=";
                  Enc (buildOverpassQuery (ll_lat p) (ll_lng p) radius)]]
  ∧ radius ≠ NaN ∧ radius ≠ Integer 0
  ∧ (mathInt (radiusInput w) = None ∨ mathInt (radiusInput w) = Some 0%Z ->
     radius = Integer 2000)
  ∧ (∀ n, mathInt (radiusInput w) = Some n -> n ≠ 0%Z ->
       radius = to_double n
       ∧ ((Z.abs n ≤ 2 ^ 53)%Z -> radius = Integer n)
       ∧ (∀ z, radius = Integer z -> (2 ^ 53 * Z.abs (z - n) ≤ Z.abs n)%Z)
       ∧ (∀ negative, radius = Infinite negative -> (2 ^ 1023 ≤ Z.abs n)%Z))
  ∧ ((∀ r, trim_start (radiusInput w) ≠ String "-" r) ->
     radius = Infinite false ∨ ∃ z, radius = Integer z ∧ (0 < z)%Z).
Proof.
  intros Hme radius. split.
  { unfold exec. by rewrite (scanNearby_call_located w p Hme). }
  subst radius. unfold radius_of, parseInt.
  destruct (mathInt (radiusInput w)) as [n|] eqn:Hp.
  - destruct (decide (n = 0%Z)) as [->|Hn].
    + change (to_double 0) with (Integer 0).
      split_and!; try done.
      * intros n ? ?. by simplify_eq.
      * intros _. right. exists 2000%Z. split; [done|lia].
    + destruct (to_double_nonzero n Hn) as [Hnan Hzero].
      assert (match to_double n with
              | NaN | Integer 0 => Integer 2000
              | m => m
              end = to_double n) as ->.
      { destruct (to_double n) as [|?|[|?|?]]; done. }
      split_and!; try done.
      * intros [|]; by simplify_eq.
      * intros n' [= <-] _. split_and!.
        -- done.
        -- intros Hsmall. by apply to_double_exact.
        -- intros z. apply to_double_near.
        -- intros negative. apply to_double_infinite.
      * intros Hminus. pose proof (mathInt_sign _ _ Hp Hminus).
        apply to_double_positive. lia.
  - split_and!; try done.
    intros _. right. exists 2000%Z. split; [done|lia].
Qed.

Lemma scan_radius_default_witness :
  meMarker world_located = Some (LatLng 20 78)
  ∧ radius_of (radiusInput world_located) = Integer 2000
  ∧ sent (exec scanNearby_call world_located)
    = [[Lit OVERPASS_API; Lit "?data=";
        Enc (buildOverpassQuery 20 78 (Integer 2000))]].
Proof.
  split; [reflexivity|]. split; [reflexivity|].
  apply (scan_radius_default world_located (LatLng 20 78)).
  reflexivity.
Defined.

(** C7 as the specification states it fails: with [-5] typed in the radius
    field of a located page, the radius is -5, which is not positive, and
    the query sent carries it; [12.7], which is not a positive integer, is
    not replaced by 2000 but read as 12; and 310 digits [9] give a radius
    that is no integer, the positive infinity. *)
Lemma scan_radius_negative :
  rtc step world0 (set_radiusInput "-5" world_located)
  ∧ radius_of (radiusInput (set_radiusInput "-5" world_located))
    = Integer (-5)
  ∧ sent (exec scanNearby_call (set_radiusInput "-5" world_located))
    = [[Lit OVERPASS_API; Lit "?data=";
        Enc (buildOverpassQuery 20 78 (Integer (-5)))]]
  ∧ radius_of "12.7" = Integer 12
  ∧ radius_of (string_of_list_ascii (replicate 310 "9"%char))
    = Infinite false.
Proof.
  split.
  { eapply rtc_r; [apply world_located_reachable|apply step_type_radius]. }
  split; [reflexivity|]. split; [reflexivity|]. split; [reflexivity|].
  by vm_compute.
Qed.

(** Beyond 2^53 the radius is not the integer typed, and from 309 digits on
    it is no integer at all. *)
Example radius_of_large :
  radius_of "9007199254740993" = Integer 9007199254740992
  ∧ radius_of "9007199254740995" = Integer 9007199254740996
  ∧ radius_of (string_of_list_ascii (replicate 310 "9"%char))
    = Infinite false
  ∧ number_frag (Infinite false) = Lit "Infinity".
Proof. by vm_compute. Qed.

(** ** Ranking and filtering *)

Lemma mapM_with_type l :
  mapM with_type l = Ok (map (fun e => (e, category_of e)) l).
Proof.
  induction l as [|e l IH]; [done|].
  cbn [mapM map]. rewrite IH. unfold with_type.
  by rewrite (classify_category_of e).
Qed.

Lemma select_places_ok ok elems :
  select_places ok elems
  = Ok (filter (fun p => p.2 ∈ ok)
          (map (fun e => (copy_element e, category_of (copy_element e))) elems)).
Proof.
  unfold select_places. rewrite mapM_with_type.
  by rewrite map_map.
Qed.

Lemma okTypes_of_not_unknown w : Unknown ∉ okTypes_of w.
Proof.
  unfold okTypes_of.
  destruct (show_hospital w), (show_police w), (show_fire w), (show_shelter w);
    set_solver.
Qed.

Lemma rank_places_perm myLat myLon ps :
  rank_places myLat myLon ps ≡ₚ map (with_dist myLat myLon) ps.
Proof. apply (stable_sort_perm p_dist). Qed.

Lemma marker_name_total v :
  v ≠ JUndefined -> v ≠ JNull -> ∃ n, marker_name v = Ok n.
Proof.
  intros Hu Hn. unfold marker_name.
  destruct (get_prop_total v "name" Hu Hn) as [n ->].
  destruct (get_prop_total v "amenity" Hu Hn) as [a ->].
  simpl. destruct (truthy n); eauto.
Qed.

Lemma list_name_total v :
  v ≠ JUndefined -> v ≠ JNull -> ∃ n, list_name v = Ok n.
Proof.
  intros Hu Hn. unfold list_name.
  destruct (get_prop_total v "name" Hu Hn) as [n ->].
  destruct (get_prop_total v "amenity" Hu Hn) as [a ->].
  simpl. destruct (truthy v), (truthy n); simpl; eauto.
Qed.

Lemma bind_last_snoc popup dest ms m :
  bind_last popup dest (ms ++ [m])
  = ms ++ [Marker (m_lat m) (m_lon m) (m_icon m) (Some popup) (Some dest)].
Proof.
  unfold bind_last. rewrite reverse_snoc. by rewrite reverse_involutive.
Qed.

Lemma show_place_ok myLat myLon p w :
  tags (p_elem p) ≠ JUndefined -> tags (p_elem p) ≠ JNull ->
  show_place myLat myLon p w
  = (Ok (),
     set_results (results w ++ [item_of myLat myLon p])
       (set_placeMarkers (placeMarkers w ++ [marker_of p]) w)).
Proof.
  intros Hu Hn. unfold show_place, addPlaceToList, item_of, marker_of.
  destruct (marker_name_total _ Hu Hn) as [n ->].
  destruct (list_name_total _ Hu Hn) as [n' ->].
  run_M. by rewrite bind_last_snoc.
Qed.

Lemma forEach_show_place myLat myLon ps w :
  Forall (fun p => tags (p_elem p) ≠ JUndefined ∧ tags (p_elem p) ≠ JNull) ps ->
  forEach ps (show_place myLat myLon) w
  = (Ok (),
     set_results (results w ++ map (item_of myLat myLon) ps)
       (set_placeMarkers (placeMarkers w ++ map marker_of ps) w)).
Proof.
  intros Hps. revert w.
  induction Hps as [|p ps [Hu Hn] _ IH]; intros w.
  - simpl. rewrite !app_nil_r. by destruct w.
  - cbn [forEach]. unfold mbind, M_bind.
    rewrite (show_place_ok _ _ _ _ Hu Hn), IH.
    destruct w; simpl. by rewrite <- !app_assoc.
Qed.

(** The world [scanNearby] leaves once the elements have arrived. *)
Lemma scanNearby_rest_eq p elems w :
  let selected :=
    filter (fun q => q.2 ∈ okTypes_of w)
      (map (fun e => (copy_element e, category_of (copy_element e))) elems) in
  let out := rank_places (ll_lat p) (ll_lng p) selected in
  scanNearby_rest p elems w
  = (Ok (),
     if bool_decide (length elems = 0)
     then set_status [Lit "Status: "; Lit "No places found in radius"] w
     else if bool_decide (length selected = 0)
     then set_status [Lit "Status: "; Lit "No selected-type places found"] w
     else set_status [Lit "Status: "; Lit "Found "; Num (INR (length out));
                      Lit " place(s)"]
            (set_results (results w ++ map (item_of (ll_lat p) (ll_lng p)) out)
               (set_placeMarkers (placeMarkers w ++ map marker_of out) w))).
Proof.
  intros selected out. unfold scanNearby_rest.
  case_bool_decide as He; [done|].
  unfold mbind, M_bind, gets, lift.
  rewrite select_places_ok. fold selected.
  case_bool_decide as Hs; [done|].
  fold out. rewrite forEach_show_place; [done|].
  apply Forall_forall. intros q Hq.
  unfold out in Hq. rewrite rank_places_perm in Hq.
  apply list_elem_of_fmap in Hq as [[e c] [-> Hq]].
  apply list_elem_of_filter in Hq as [_ Hq].
  apply list_elem_of_fmap in Hq as [e0 [[= -> ->] _]].
  apply js_or_obj_not_nullish.
Qed.

(** Where the ranked places go: one marker and one list item each, in
    order, whether or not any place is kept. *)
Lemma scanNearby_rest_shows p elems w :
  let out :=
    rank_places (ll_lat p) (ll_lng p)
      (filter (fun q => q.2 ∈ okTypes_of w)
         (map (fun e => (copy_element e, category_of (copy_element e))) elems)) in
  (scanNearby_rest p elems w).1 = Ok ()
  ∧ results (exec (scanNearby_rest p elems) w)
    = results w ++ map (item_of (ll_lat p) (ll_lng p)) out
  ∧ placeMarkers (exec (scanNearby_rest p elems) w)
    = placeMarkers w ++ map marker_of out.
Proof.
  intros out. unfold exec. rewrite scanNearby_rest_eq. fold out. simpl.
  case_bool_decide as He.
  { destruct elems; [|done]. simpl. by rewrite !app_nil_r. }
  case_bool_decide as Hs; [|done].
  apply length_zero_iff_nil in Hs. unfold out. rewrite Hs. simpl.
  by rewrite !app_nil_r.
Qed.

(** The sort on keys that compute: equal keys keep their order. *)
Example stable_sort_keeps_ties :
  stable_sort (fun a b : nat * string => bool_decide (b.1 < a.1))
    [(2, "a"); (1, "b"); (2, "c"); (1, "d"); (0, "e")]
  = [(0, "e"); (1, "b"); (1, "d"); (2, "a"); (2, "c")].
Proof. reflexivity. Qed.

(** The scenario of the specification: a hospital and a restaurant, with
    only the hospital box checked; the hospital alone is kept. *)
Example select_places_hospital_only :
  select_places [Hospital]
    [Element (JNum 1) 20.001 78.001 (JObj {["amenity" := JStr "hospital"]});
     Element (JNum 2) 20.0005 78.0005 (JObj {["amenity" := JStr "restaurant"]})]
  = Ok [(Element (JNum 1) 20.001 78.001
           (JObj {["amenity" := JStr "hospital"]}), Hospital)].
Proof. reflexivity. Qed.

(** ** The distance and the sort in double precision *)

Lemma sub_nan_r (x : float) : (x - nan)%float = nan.
Proof.
  apply Prim2SF_inj. rewrite sub_spec.
  change (Prim2SF nan) with S754_nan.
  unfold SF64sub, SFsub. by destruct (Prim2SF x).
Qed.

Lemma sub_nan_l (x : float) : (nan - x)%float = nan.
Proof.
  apply Prim2SF_inj. rewrite sub_spec.
  change (Prim2SF nan) with S754_nan. done.
Qed.

(** C8: the distance between the point (36.97, 78) and its antipode
    (-36.97, -102), in either direction, is NaN on every platform whose
    sine and cosine are correctly rounded at the six arguments that arise.
    The sum [a] of the squared sine and the squared cosine rounds to
    1.0000000000000002, [1 - a] is negative, its square root is NaN and so
    are the arc tangent and the product.  The haversine formula gives half
    the circumference, pi times 6,371,000 m. *)
Theorem haversine_double_antipodal (pf : platform) :
  sin_of pf 0.6452482244623036 = 0.6013967761004443%float ->
  sin_of pf (-0.6452482244623036) = (-0.6013967761004443)%float ->
  cos_of pf 0.6452482244623036 = 0.7989505101669265%float ->
  cos_of pf (-0.6452482244623036) = 0.7989505101669265%float ->
  sin_of pf 1.5707963267948966 = 1%float ->
  sin_of pf (-1.5707963267948966) = (-1)%float ->
  haversine_double pf 36.97 78 (-36.97) (-102) = nan
  ∧ haversine_double pf (-36.97) (-102) 36.97 78 = nan.
Proof.
  intros Hs Hs' Hc Hc' Hq Hq'.
  destruct pf as [fs fc fa]. cbn [sin_of cos_of atan2_of] in *.
  unfold haversine_double, Math_sin, Math_cos, Math_atan2.
  cbn [sin_of cos_of atan2_of].
  split.
  - vm_compute. rewrite Hs', Hc, Hc', Hq'. vm_compute. reflexivity.
  - vm_compute. rewrite Hs, Hc, Hc', Hq. vm_compute. reflexivity.
Qed.

Lemma haversine_double_antipodal_witness :
  haversine_double sample_platform 36.97 78 (-36.97) (-102) = nan
  ∧ haversine_double sample_platform (-36.97) (-102) 36.97 78 = nan.
Proof.
  apply (haversine_double_antipodal sample_platform); reflexivity.
Defined.

(** What the arithmetic makes of the correctly rounded sine and cosine at
    the antipode, and what it makes of a point and itself. *)
Example haversine_double_values :
  toRad_double 36.97 = 0.6452482244623036%float
  ∧ (toRad_double (-36.97 - 36.97) / 2 = -0.6452482244623036)%float
  ∧ (toRad_double (-102 - 78) / 2 = -1.5707963267948966)%float
  ∧ (0.6013967761004443 * 0.6013967761004443
     + 0.7989505101669265 * 0.7989505101669265 * (-1) * (-1)
     = 1.0000000000000002)%float
  ∧ PrimFloat.sqrt (1 - 1.0000000000000002) = nan
  ∧ haversine_double sample_platform 36.97 78 36.97 78 = 0%float.
Proof. by vm_compute. Qed.

(** C1: a place whose distance is NaN keeps the sort from ordering the
    places around it.  Of three places the second of which has the distance
    NaN, the order after the sort is the order before it; when the third is
    nearer than the first, the output lists the nearer place after the
    farther one and is not sorted by distance. *)
Theorem rank_double_nan_unsorted (pf : platform) (myLat myLon : float)
    (p1 p2 p3 : float * float) :
  let d1 := haversine_double pf myLat myLon p1.1 p1.2 in
  let d3 := haversine_double pf myLat myLon p3.1 p3.2 in
  haversine_double pf myLat myLon p2.1 p2.2 = nan ->
  (d3 <? d1)%float = true ->
  rank_double pf myLat myLon [p1; p2; p3]
  = [PlaceDouble p1.1 p1.2 d1; PlaceDouble p2.1 p2.2 nan;
     PlaceDouble p3.1 p3.2 d3]
  ∧ ∃ a b, rank_double pf myLat myLon [p1; p2; p3] !! 0%nat = Some a
           ∧ rank_double pf myLat myLon [p1; p2; p3] !! 2%nat = Some b
           ∧ (pd_dist b <? pd_dist a)%float = true.
Proof.
  intros d1 d3 Hnan Hlt.
  assert (rank_double pf myLat myLon [p1; p2; p3]
          = [PlaceDouble p1.1 p1.2 d1; PlaceDouble p2.1 p2.2 nan;
             PlaceDouble p3.1 p3.2 d3]) as Hrank.
  { unfold rank_double, array_sort_double, stable_sort.
    cbn [map foldr insert_sorted pd_dist]. rewrite Hnan.
    rewrite sub_nan_l. change (0 <? nan)%float with false. cbn iota.
    cbn [insert_sorted pd_dist]. rewrite sub_nan_r.
    change (0 <? nan)%float with false. cbn iota. done. }
  split; [exact Hrank|].
  rewrite Hrank. eexists _, _. split_and!; [done..|]. exact Hlt.
Qed.

Lemma rank_double_nan_unsorted_witness :
  map pd_dist
    (rank_double sample_platform 36.97 78
       [(36.9727, 78); (-36.97, -102); (36.9709, 78)]%float)
  = [300.22630194079403; nan; 100.07543398026468]%float.
Proof.
  destruct (rank_double_nan_unsorted sample_platform 36.97 78
              (36.9727, 78)%float (-36.97, -102)%float (36.9709, 78)%float)
    as [Hrank _].
  { by vm_compute. }
  { by vm_compute. }
  rewrite Hrank. by vm_compute.
Defined.


(** ** Discovery *)

(** C5: when [fetch] settles with a status that is not a success (500, say)
    or is rejected, [fetchNearby] does not throw: it resolves to the empty
    sequence, and the status line reads [Overpass failed: ] followed by the
    error, which carries the status or the message; nothing else changes. *)
Theorem fetchNearby_failure_empty (w : world)
  (res : result (response overpass_data)) (e : text) :
  discovery_error res = Some e ->
  fetchNearby_fetched res w
  = (Ok (Finished []),
     set_status (Lit "Status: " :: Lit "Overpass failed: " :: e) w).
Proof.
  unfold discovery_error, fetchNearby_fetched. intros He.
  destruct res as [r|message]; run_M.
  - destruct (resp_ok r); [done|]. simpl. by simplify_eq.
  - by simplify_eq.
Qed.

Lemma fetchNearby_failure_empty_witness :
  discovery_error (Ok (Response 500 (Throw [])))
  = Some [Lit "Overpass error "; Num 500]
  ∧ fetchNearby_fetched (Ok (Response 500 (Throw []))) world_located
    = (Ok (Finished []),
       set_status [Lit "Status: "; Lit "Overpass failed: ";
                   Lit "Overpass error "; Num 500] world_located).
Proof.
  split; [reflexivity|].
  apply (fetchNearby_failure_empty world_located
           (Ok (Response 500 (Throw [])))).
  reflexivity.
Defined.

(** [discovered] is what [fetchNearby] resolves to, at whichever segment it
    returns; it never rejects. *)
Lemma fetchNearby_resolves res w :
  match fetchNearby_fetched res w with
  | (Ok (Finished elems), _) => elems = discovered res
  | (Ok Awaiting, w1) =>
      ∃ r, res = Ok r
           ∧ (fetchNearby_parsed (resp_json r) w1).1 = Ok (discovered res)
  | (Throw _, _) => False
  end.
Proof.
  unfold fetchNearby_fetched, fetchNearby_parsed, discovered. run_M.
  destruct res as [r|message]; simpl; [|done].
  destruct (resp_ok r); simpl; [|done].
  exists r. split; [done|]. by destruct (resp_json r).
Qed.

(** What a discovery cycle leaves of the list and the markers when it ends
    at one of its guards. *)
Lemma scanNearby_rest_empty p w :
  scanNearby_rest p [] w
  = (Ok (), set_status [Lit "Status: "; Lit "No places found in radius"] w).
Proof. reflexivity. Qed.

Lemma scanNearby_run_no_location res w :
  meMarker w = None ->
  scanNearby_run res w
  = (Ok (), set_status [Lit "Status: "; Lit "No location yet"]
              (set_results [] (set_placeMarkers [] w))).
Proof.
  intros Hme. unfold scanNearby_run, scanNearby_call. run_M.
  by rewrite Hme.
Qed.

Lemma scanNearby_run_nothing_found res w p :
  meMarker w = Some p -> discovered res = [] ->
  exec (scanNearby_run res) w
  = set_sent (sent w ++ [[Lit OVERPASS_API; Lit "?data=";
                          Enc (buildOverpassQuery (ll_lat p) (ll_lng p)
                                 (radius_of (radiusInput w)))]])
      (set_status [Lit "Status: "; Lit "No places found in radius"]
         (set_results [] (set_placeMarkers [] w))).
Proof.
  intros Hme Hd. unfold exec, scanNearby_run.
  unfold mbind at 1, M_bind at 1.
  rewrite (scanNearby_call_located w p Hme).
  unfold scanNearby_fetched, scanNearby_parsed, fetchNearby_fetched,
    fetchNearby_parsed, discovered in *.
  destruct res as [r|message]; run_M; [|reflexivity].
  destruct (resp_ok r); simpl; [|reflexivity].
  destruct (resp_json r) as [data|message]; simpl; [|reflexivity].
  rewrite Hd. reflexivity.
Qed.

(** C6, as the code has it: a discovery cycle empties the displayed list
    and the markers as its first step, before any guard.  A cycle that
    fails for want of a position, on a network or HTTP error, or on an empty
    answer therefore ends with an empty list, never the former one; what it
    leaves untouched is the position, the route slot, the route on display
    and the view. *)
Theorem scanNearby_failure_clears_list (w : world)
  (res : result (response overpass_data)) :
  meMarker w = None ∨ discovered res = [] ->
  results (exec scanNearby_call w) = []
  ∧ placeMarkers (exec scanNearby_call w) = []
  ∧ results (exec (scanNearby_run res) w) = []
  ∧ placeMarkers (exec (scanNearby_run res) w) = []
  ∧ meMarker (exec (scanNearby_run res) w) = meMarker w
  ∧ routeLayer (exec (scanNearby_run res) w) = routeLayer w
  ∧ mapLayers (exec (scanNearby_run res) w) = mapLayers w
  ∧ mapView (exec (scanNearby_run res) w) = mapView w.
Proof.
  intros Hfail.
  assert (results (exec scanNearby_call w) = []
          ∧ placeMarkers (exec scanNearby_call w) = []) as [Hr Hm].
  { unfold scanNearby_call. run_M. by destruct (meMarker w). }
  split; [exact Hr|]. split; [exact Hm|].
  destruct (meMarker w) as [p|] eqn:Hme.
  - destruct Hfail as [|Hd]; [done|].
    by rewrite (scanNearby_run_nothing_found res w p Hme Hd).
  - unfold exec. by rewrite (scanNearby_run_no_location res w Hme).
Qed.

Lemma scanNearby_failure_clears_list_witness :
  (meMarker world_listed = None
   ∨ discovered (Throw [Lit "Failed to fetch"]) = [])
  ∧ results (exec (scanNearby_run (Throw [Lit "Failed to fetch"])) world_listed)
    = [].
Proof.
  split; [right; reflexivity|].
  apply (scanNearby_failure_clears_list world_listed
           (Throw [Lit "Failed to fetch"])).
  right. reflexivity.
Defined.

(** C6 as the specification states it fails: on a page that lists one
    hospital, a discovery cycle whose request is rejected by the network
    ends with an empty list. *)
Lemma scanNearby_failure_keeps_list_counterexample :
  rtc step world0 world_listed
  ∧ results world_listed
    = [ResultItem Hospital (JStr "hospital") (haversine 20 78 20.001 78.001)
         20.001 78.001 (20.001, 78.001)%R]
  ∧ discovered (Throw [Lit "Failed to fetch"]) = []
  ∧ results (exec (scanNearby_run (Throw [Lit "Failed to fetch"])) world_listed)
    = []
  ∧ results (exec (scanNearby_run (Throw [Lit "Failed to fetch"])) world_listed)
    ≠ results world_listed.
Proof.
  split; [apply world_listed_reachable|].
  repeat split. discriminate.
Qed.

(** ** The route slot over the runs of the page *)

Lemma route_inv_frame w w' :
  routeLayer w' = routeLayer w -> mapLayers w' = mapLayers w ->
  route_inv w -> route_inv w'.
Proof. unfold route_inv. intros -> ->. done. Qed.

Lemma removeLayer_inv w l :
  route_inv w -> routeLayer w = Some l ->
  filter (fun x => layer_id x ≠ layer_id l) (mapLayers w) = [].
Proof.
  intros [->|(l' & Hl & ->)] Hw; [done|].
  simplify_eq. rewrite filter_cons. by case_decide.
Qed.

Lemma scanNearby_rest_route p elems w :
  routeLayer (exec (scanNearby_rest p elems) w) = routeLayer w
  ∧ mapLayers (exec (scanNearby_rest p elems) w) = mapLayers w.
Proof.
  unfold exec. rewrite scanNearby_rest_eq. simpl.
  by repeat case_bool_decide.
Qed.

Lemma routeTo_parsed_inv json w :
  route_inv w -> route_inv (exec (routeTo_parsed json) w).
Proof.
  intros Hinv. unfold routeTo_parsed. destruct json as [j|message]; run_M.
  - destruct (routeLayer w) as [l|] eqn:Hl; simpl.
    + rewrite (removeLayer_inv w l Hinv Hl).
      destruct (routes j) as [[|r0 rest]|]; simpl; unfold route_inv; simpl;
        eauto.
    + assert (mapLayers w = []) as Hm.
      { destruct Hinv as [|(l & ? & ?)]; [done|congruence]. }
      destruct (routes j) as [[|r0 rest]|]; simpl; unfold route_inv; simpl;
        rewrite ?Hm; eauto.
  - exact Hinv.
Qed.

Lemma fetchNearby_fetched_route res w :
  routeLayer (fetchNearby_fetched res w).2 = routeLayer w
  ∧ mapLayers (fetchNearby_fetched res w).2 = mapLayers w.
Proof.
  unfold fetchNearby_fetched. run_M.
  destruct res as [r|message]; simpl; [|done]. by destruct (resp_ok r).
Qed.

Lemma fetchNearby_parsed_route json w :
  routeLayer (fetchNearby_parsed json w).2 = routeLayer w
  ∧ mapLayers (fetchNearby_parsed json w).2 = mapLayers w.
Proof. unfold fetchNearby_parsed. run_M. by destruct json. Qed.

Lemma scanNearby_fetched_route p res w :
  routeLayer (exec (scanNearby_fetched p res) w) = routeLayer w
  ∧ mapLayers (exec (scanNearby_fetched p res) w) = mapLayers w.
Proof.
  destruct (fetchNearby_fetched_route res w) as [Hr Hm].
  unfold exec, scanNearby_fetched, mbind, M_bind.
  destruct (fetchNearby_fetched res w) as [[[elems|]|e] w1]; simpl in *;
    try done.
  destruct (scanNearby_rest_route p elems w1) as [Hr1 Hm1].
  unfold exec in Hr1, Hm1.
  destruct (scanNearby_rest p elems w1) as [[[]|e] w2]; simpl in *;
    split; congruence.
Qed.

Lemma scanNearby_parsed_route p json w :
  routeLayer (exec (scanNearby_parsed p json) w) = routeLayer w
  ∧ mapLayers (exec (scanNearby_parsed p json) w) = mapLayers w.
Proof.
  destruct (fetchNearby_parsed_route json w) as [Hr Hm].
  unfold exec, scanNearby_parsed, mbind, M_bind.
  destruct (fetchNearby_parsed json w) as [[elems|e] w1]; simpl in *;
    try done.
  destruct (scanNearby_rest_route p elems w1) as [Hr1 Hm1].
  unfold exec in Hr1, Hm1. split; congruence.
Qed.

Lemma step_route_inv w w' : step w w' -> route_inv w -> route_inv w'.
Proof.
  intros Hstep Hinv. destruct Hstep.
  - apply (route_inv_frame w); [| |done];
      unfold on_position; run_M; by destruct (meMarker w).
  - by apply (route_inv_frame w).
  - apply (route_inv_frame w); [| |done];
      unfold locate_click; run_M; by destruct (meMarker w).
  - apply (route_inv_frame w); [| |done];
      unfold scanNearby_call; run_M; by destruct (meMarker w).
  - apply (route_inv_frame w); [| |done]; apply scanNearby_fetched_route.
  - apply (route_inv_frame w); [| |done]; apply scanNearby_parsed_route.
  - apply (route_inv_frame w); [| |done];
      unfold item_click, routeTo_call; run_M; by destruct (meMarker w).
  - apply (route_inv_frame w); [| |done];
      unfold routeTo_call; run_M; by destruct (meMarker w).
  - apply (route_inv_frame w); [| |done];
      unfold routeTo_fetched; run_M;
      (destruct res as [r|message]; simpl; [by destruct (resp_ok r)|done]).
  - by apply routeTo_parsed_inv.
  - unfold clearRoute_click. run_M.
    destruct (routeLayer w) as [l|] eqn:Hl; simpl; [|done].
    left. simpl. by apply removeLayer_inv.
  - by apply (route_inv_frame w).
  - by apply (route_inv_frame w).
Qed.

(** In every world the page can reach, at most the route of the slot is on
    the map. *)
Lemma reachable_route_inv w : rtc step world0 w -> route_inv w.
Proof.
  intros Hrun. apply rtc_ind_r with (x := world0) (P := route_inv) in Hrun;
    [done|by left|].
  intros w1 w2 _ Hstep Hinv. by apply (step_route_inv w1).
Qed.

(** ** Routing and the route slot *)

(** The layers left on the map once the layer of the slot is removed. *)
Lemma routeTo_parsed_no_route w j :
  routes j = None ∨ routes j = Some [] ->
  routeTo_parsed (Ok j) w
  = (Ok (),
     set_status [Lit "Status: "; Lit "No route found"]
       (match routeLayer w with
        | Some l =>
            set_mapLayers
              (filter (fun x => layer_id x ≠ layer_id l) (mapLayers w)) w
        | None => w
        end)).
Proof.
  intros Hj. unfold routeTo_parsed. run_M.
  destruct (routeLayer w) as [l|]; simpl; by destruct Hj as [-> | ->].
Qed.

(** C4, as the code has it: when the answer is a success whose route list
    is empty or absent, [routeTo] reports [No route found] without throwing
    and shows no new route; but the answer having arrived, the route that
    was on display is taken off the map first, so that in every world the
    page can reach no route is left on the map.  Only when the slot was
    empty is the world, but for the status line, left as it was. *)
Theorem routeTo_no_route_found (w : world) (j : osrm_data) :
  routes j = None ∨ routes j = Some [] ->
  (routeTo_parsed (Ok j) w).1 = Ok ()
  ∧ status (exec (routeTo_parsed (Ok j)) w)
    = [Lit "Status: "; Lit "No route found"]
  ∧ mapLayers (exec (routeTo_parsed (Ok j)) w)
    = match routeLayer w with
      | Some l => filter (fun x => layer_id x ≠ layer_id l) (mapLayers w)
      | None => mapLayers w
      end
  ∧ Forall (fun x => Some (layer_id x) ≠ layer_id <$> routeLayer w)
      (mapLayers (exec (routeTo_parsed (Ok j)) w))
  ∧ allocated (exec (routeTo_parsed (Ok j)) w) = allocated w
  ∧ (rtc step world0 w -> mapLayers (exec (routeTo_parsed (Ok j)) w) = [])
  ∧ (routeLayer w = None ->
     exec (routeTo_parsed (Ok j)) w
     = set_status [Lit "Status: "; Lit "No route found"] w).
Proof.
  intros Hj. unfold exec. rewrite (routeTo_parsed_no_route w j Hj).
  destruct (routeLayer w) as [l|] eqn:Hl; simpl.
  - repeat split; try done.
    + apply Forall_forall. intros x Hx.
      apply list_elem_of_filter in Hx as [Hne _]. congruence.
    + intros Hrun. apply removeLayer_inv; [|done].
      by apply reachable_route_inv.
  - repeat split; try done.
    + apply Forall_forall. intros x _. done.
    + intros Hrun. apply reachable_route_inv in Hrun as [|(l & ? & _)];
        [done|congruence].
Qed.

Lemma routeTo_no_route_found_witness :
  (routes (OsrmData (Some [])) = None ∨ routes (OsrmData (Some [])) = Some [])
  ∧ status (exec (routeTo_parsed (Ok (OsrmData (Some [])))) world_routed)
    = [Lit "Status: "; Lit "No route found"].
Proof.
  split; [right; reflexivity|].
  apply (routeTo_no_route_found world_routed (OsrmData (Some []))).
  right. reflexivity.
Defined.

(** C4 as the specification states it fails: on a page that shows a route,
    a new request answered with an empty route list reports that no route
    was found and leaves no route on the map. *)
Lemma routeTo_no_route_keeps_display_counterexample :
  rtc step world0 world_routed
  ∧ mapLayers world_routed = [Layer 0 (JObj {["type" := JStr "LineString"]})]
  ∧ (routeTo_call 21 79 world_routed).1 = Ok Awaiting
  ∧ mapLayers
      (exec (routeTo_parsed (Ok (OsrmData (Some []))))
         (exec (routeTo_fetched (Ok (Response 200 (Ok (OsrmData (Some []))))))
            (exec (routeTo_call 21 79) world_routed))) = []
  ∧ mapLayers
      (exec (routeTo_parsed (Ok (OsrmData (Some []))))
         (exec (routeTo_fetched (Ok (Response 200 (Ok (OsrmData (Some []))))))
            (exec (routeTo_call 21 79) world_routed)))
    ≠ mapLayers world_routed.
Proof.
  split; [apply world_routed_reachable|].
  repeat split. discriminate.
Qed.

Lemma routeTo_call_located w p destLat destLon :
  meMarker w = Some p ->
  routeTo_call destLat destLon w
  = (Ok Awaiting,
     set_sent (sent w ++ [[Lit OSRM_ROUTE; Lit "/"; Num (ll_lng p); Lit ",";
                           Num (ll_lat p); Lit ";"; Num destLon; Lit ",";
                           Num destLat;
                           Lit "?overview=full&geometries=geojson&steps=false"]])
       (set_status [Lit "Status: "; Lit "Requesting route..."] w)).
Proof. intros Hme. unfold routeTo_call. run_M. by rewrite Hme. Qed.

Lemma routeTo_fetched_ok w r :
  resp_ok r = true -> routeTo_fetched (Ok r) w = (Ok Awaiting, w).
Proof. intros Hok. unfold routeTo_fetched. run_M. by rewrite Hok. Qed.

(** The route a successful answer installs, whatever the slot held. *)
Lemma routeTo_parsed_route w j r0 rest :
  routes j = Some (r0 :: rest) ->
  (routeTo_parsed (Ok j) w).1 = Ok ()
  ∧ routeLayer (exec (routeTo_parsed (Ok j)) w)
    = Some (Layer (allocated w) (geometry r0))
  ∧ Layer (allocated w) (geometry r0) ∈ mapLayers (exec (routeTo_parsed (Ok j)) w)
  ∧ status (exec (routeTo_parsed (Ok j)) w)
    = [Lit "Status: "; Lit "Route: "; Fixed (distance r0 / 1000) 2;
       Lit " km — "; Rounded (duration r0 / 60); Lit " min"].
Proof.
  intros Hj. unfold routeTo_parsed. run_M.
  destruct (routeLayer w) as [l|]; simpl; rewrite Hj; simpl;
    repeat split; set_solver.
Qed.

Lemma routeTo_parsed_route_inv w j r0 rest :
  route_inv w -> routes j = Some (r0 :: rest) ->
  routeLayer (exec (routeTo_parsed (Ok j)) w)
  = Some (Layer (allocated w) (geometry r0))
  ∧ mapLayers (exec (routeTo_parsed (Ok j)) w)
    = [Layer (allocated w) (geometry r0)].
Proof.
  intros Hinv Hj. unfold routeTo_parsed. run_M.
  destruct (routeLayer w) as [l|] eqn:Hl; simpl; rewrite Hj; simpl.
  - by rewrite (removeLayer_inv w l Hinv Hl).
  - destruct Hinv as [->|(l & ? & ?)]; [done|congruence].
Qed.

Lemma clearRoute_click_frame w :
  meMarker (exec clearRoute_click w) = meMarker w
  ∧ allocated (exec clearRoute_click w) = allocated w
  ∧ routeLayer (exec clearRoute_click w) = None.
Proof.
  unfold clearRoute_click. run_M. by destruct (routeLayer w) eqn:Hl.
Qed.

Lemma handle_select w fl p destLat destLon :
  meMarker w = Some p ->
  handle (Coordinator w fl) (SelectDestination destLat destLon)
  = Coordinator (exec (routeTo_call destLat destLon) w) (fl ++ [AtFetch]).
Proof.
  intros Hme. unfold handle, exec. cbn [page inflight].
  by rewrite (routeTo_call_located w p _ _ Hme).
Qed.

Lemma handle_fetch_ok w fl i r :
  fl !! i = Some AtFetch -> resp_ok r = true ->
  handle (Coordinator w fl) (FetchSettles i (Ok r))
  = Coordinator w (<[i := AtJson]> fl).
Proof.
  intros Hi Hok. unfold handle. cbn [page inflight].
  by rewrite Hi, (routeTo_fetched_ok w r Hok).
Qed.

Lemma handle_clear w fl :
  handle (Coordinator w fl) ClearRoute
  = Coordinator (exec clearRoute_click w) fl.
Proof. reflexivity. Qed.

Lemma handle_json w fl i json :
  fl !! i = Some AtJson ->
  handle (Coordinator w fl) (JsonSettles i json)
  = Coordinator (exec (routeTo_parsed json) w) (delete i fl).
Proof. intros Hi. unfold handle. cbn [page inflight]. by rewrite Hi. Qed.

Lemma clear_then_success_segments w p destLat destLon j r0 rest :
  meMarker w = Some p ->
  route_inv w ->
  routes j = Some (r0 :: rest) ->
  let cleared := exec clearRoute_click (exec (routeTo_call destLat destLon) w) in
  phase_of (Coordinator (exec (routeTo_parsed (Ok j)) cleared) []) = Some Active
  ∧ routeLayer (exec (routeTo_parsed (Ok j)) cleared)
    = Some (Layer (allocated w) (geometry r0))
  ∧ mapLayers (exec (routeTo_parsed (Ok j)) cleared)
    = [Layer (allocated w) (geometry r0)].
Proof.
  intros Hme Hinv Hj cleared.
  assert (allocated cleared = allocated w) as Ha.
  { unfold cleared.
    destruct (clearRoute_click_frame (exec (routeTo_call destLat destLon) w))
      as (_ & -> & _).
    unfold exec. by rewrite (routeTo_call_located w p _ _ Hme). }
  assert (route_inv cleared) as Hc.
  { eapply step_route_inv; [apply step_clear|].
    eapply step_route_inv; [apply step_route_call|done]. }
  destruct (routeTo_parsed_route_inv cleared j r0 rest Hc Hj) as [Hl Hm].
  rewrite Ha in Hl, Hm.
  unfold phase_of. cbn [page inflight]. rewrite Hl, Hm. simpl.
  by case_decide.
Qed.

(** C3, as the code has it: a clear command issued while a route request
    is in flight only empties the slot as it is then; nothing records the
    command, and the coordinator stays in Requesting.  When the request
    then succeeds with a route, that route is installed and displayed: the
    last state is Active, with the route of the answer in the slot and,
    alone, on the map.  This holds whether the clear command comes before
    [fetch] settles or before [res.json()] does. *)
Theorem clear_in_flight_then_success_active (w : world) (p : latlng)
  (destLat destLon : R) (r : response osrm_data) (j : osrm_data)
  (r0 : osrm_route) (rest : list osrm_route) :
  meMarker w = Some p ->
  route_inv w ->
  resp_ok r = true ->
  routes j = Some (r0 :: rest) ->
  let c0 := Coordinator w [] in
  let early :=
    run [SelectDestination destLat destLon; ClearRoute;
         FetchSettles 0 (Ok r); JsonSettles 0 (Ok j)] c0 in
  let late :=
    run [SelectDestination destLat destLon; FetchSettles 0 (Ok r);
         ClearRoute; JsonSettles 0 (Ok j)] c0 in
  phase_of (run [SelectDestination destLat destLon] c0) = Some Requesting
  ∧ phase_of (run [SelectDestination destLat destLon; ClearRoute] c0)
    = Some Requesting
  ∧ phase_of early = Some Active
  ∧ routeLayer (page early) = Some (Layer (allocated w) (geometry r0))
  ∧ mapLayers (page early) = [Layer (allocated w) (geometry r0)]
  ∧ late = early.
Proof.
  intros Hme Hinv Hok Hj c0 early late. subst early late c0.
  destruct (clear_then_success_segments w p destLat destLon j r0 rest
              Hme Hinv Hj) as (Hphase & Hl & Hm).
  unfold run. cbn [foldl].
  rewrite !(handle_select w [] p destLat destLon Hme). cbn [app].
  rewrite !handle_clear, !(handle_fetch_ok _ [AtFetch] 0 r eq_refl Hok),
    !handle_clear.
  rewrite !(handle_json _ [AtJson] 0 _ eq_refl).
  cbn [page inflight delete list_delete].
  split_and!; done.
Qed.

Lemma clear_in_flight_then_success_active_witness :
  meMarker world_routed = Some (LatLng 20 78)
  ∧ route_inv world_routed
  ∧ resp_ok (Response 200 (Ok sample_route)) = true
  ∧ routes sample_route
    = Some [OsrmRoute (JObj {["type" := JStr "LineString"]}) 1200 90]
  ∧ phase_of
      (run [SelectDestination 21 79; ClearRoute;
            FetchSettles 0 (Ok (Response 200 (Ok sample_route)));
            JsonSettles 0 (Ok sample_route)]
         (Coordinator world_routed []))
    = Some Active.
Proof.
  assert (route_inv world_routed) as Hinv.
  { right. eexists. split; reflexivity. }
  split; [reflexivity|]. split; [exact Hinv|].
  split; [reflexivity|]. split; [reflexivity|].
  destruct (clear_in_flight_then_success_active world_routed (LatLng 20 78)
              21 79 (Response 200 (Ok sample_route)) sample_route
              (OsrmRoute (JObj {["type" := JStr "LineString"]}) 1200 90) []
              eq_refl Hinv eq_refl eq_refl) as (_ & _ & Hactive & _).
  exact Hactive.
Defined.

(** C3 as the specification states it fails: on a page that shows a route,
    a new destination is selected, the clear command is issued while the
    request is in flight (which removes the old route), and the answer
    carries a route: the last state is Active, not Idle, with the new route
    in the slot and on the map. *)
Lemma clear_in_flight_then_success_counterexample :
  rtc step world0 world_routed
  ∧ phase_of (Coordinator world_routed []) = Some Active
  ∧ phase_of (run [SelectDestination 21 79; ClearRoute]
                (Coordinator world_routed [])) = Some Requesting
  ∧ mapLayers (page (run [SelectDestination 21 79; ClearRoute]
                       (Coordinator world_routed []))) = []
  ∧ phase_of
      (run [SelectDestination 21 79; ClearRoute;
            FetchSettles 0 (Ok (Response 200 (Ok sample_route)));
            JsonSettles 0 (Ok sample_route)]
         (Coordinator world_routed []))
    = Some Active
  ∧ phase_of
      (run [SelectDestination 21 79; ClearRoute;
            FetchSettles 0 (Ok (Response 200 (Ok sample_route)));
            JsonSettles 0 (Ok sample_route)]
         (Coordinator world_routed []))
    ≠ Some Idle
  ∧ mapLayers
      (page (run [SelectDestination 21 79; ClearRoute;
                  FetchSettles 0 (Ok (Response 200 (Ok sample_route)));
                  JsonSettles 0 (Ok sample_route)]
               (Coordinator world_routed [])))
    = [Layer 1 (JObj {["type" := JStr "LineString"]})].
Proof.
  split; [apply world_routed_reachable|].
  repeat split. discriminate.
Qed.

(** The guard of the click handler: with an empty route slot, no route on
    the map and no request in flight, a click on the clear button does
    nothing; the handler does not throw, and the slot, the layers on the
    map, the status line and all the rest of the page are what they
    were. *)
Lemma clear_with_empty_slot (c : coordinator) :
  phase_of c = Some Idle ->
  clearRoute_click (page c) = (Ok (), page c)
  ∧ handle c ClearRoute = c.
Proof.
  unfold phase_of, handle, exec, clearRoute_click. run_M.
  destruct c as [w fl]. simpl.
  destruct fl; [|done]. destruct (routeLayer w); [|done].
  intros H. repeat case_match; done.
Qed.

(** C10: a page in state Idle on which a clear command is not a no-op.  A
    route is shown; a destination is selected and the routing service
    answers with an empty route list, which takes the shown route off the
    map (line 140) and reports [No route found].  No route is displayed
    and no request is in flight: the state is Idle.  Yet [routeLayer] still
    holds the layer that was removed, so a click on the clear button, which
    raises no error, empties [routeLayer] and replaces the status message
    by [Route cleared]. *)
Theorem clear_in_idle_after_no_route :
  let idle :=
    run [SelectDestination 21 79;
         FetchSettles 0 (Ok (Response 200 (Ok (OsrmData (Some [])))));
         JsonSettles 0 (Ok (OsrmData (Some [])))]
      (Coordinator world_routed []) in
  rtc step world0 world_routed
  ∧ phase_of (Coordinator world_routed []) = Some Active
  ∧ inflight idle = []
  ∧ mapLayers (page idle) = []
  ∧ status (page idle) = [Lit "Status: "; Lit "No route found"]
  ∧ routeLayer (page idle)
    = Some (Layer 0 (JObj {["type" := JStr "LineString"]}))
  ∧ (clearRoute_click (page idle)).1 = Ok ()
  ∧ mapLayers (page (handle idle ClearRoute)) = []
  ∧ routeLayer (page (handle idle ClearRoute)) = None
  ∧ status (page (handle idle ClearRoute))
    = [Lit "Status: "; Lit "Route cleared"]
  ∧ handle idle ClearRoute ≠ idle.
Proof.
  cbn zeta. split; [apply world_routed_reachable|].
  split_and!; try reflexivity.
  intros H. apply (f_equal (fun c => status (page c))) in H.
  vm_compute in H. discriminate H.
Qed.

(** * Further properties of the map code *)

(** ** What each segment does to the page *)

Lemma on_position_eq lat lon accuracy w :
  on_position lat lon accuracy w
  = (Ok (),
     set_meMarker (Some (LatLng lat lon))
       (set_status [Lit "Status: "; Lit "located at "; Fixed lat 6; Lit ", ";
                    Fixed lon 6; Lit " (accuracy "; Num accuracy; Lit "m)"] w)).
Proof. unfold on_position. run_M. by destruct (meMarker w). Qed.

Lemma locate_click_eq w :
  locate_click w
  = (Ok (),
     match meMarker w with
     | Some p => set_mapView (ViewAt (ll_lat p) (ll_lng p) 16) w
     | None => set_status [Lit "Status: "; Lit "No location available yet"] w
     end).
Proof. unfold locate_click. run_M. by destruct (meMarker w). Qed.

Lemma scanNearby_call_unlocated w :
  meMarker w = None ->
  scanNearby_call w
  = (Ok None,
     set_status [Lit "Status: "; Lit "No location yet"]
       (set_results [] (set_placeMarkers [] w))).
Proof. intros Hme. unfold scanNearby_call. run_M. by rewrite Hme. Qed.

Lemma routeTo_call_unlocated w destLat destLon :
  meMarker w = None ->
  routeTo_call destLat destLon w
  = (Ok (Finished ()),
     set_status
       [Lit "Status: ";
        Lit "Current location unknown — allow location and try again"] w).
Proof. intros Hme. unfold routeTo_call. run_M. by rewrite Hme. Qed.

Lemma scanNearby_fetched_eq p res w :
  scanNearby_fetched p res w
  = match discovery_error res with
    | Some e =>
        (Ok (Finished ()),
         set_status [Lit "Status: "; Lit "No places found in radius"] w)
    | None => (Ok Awaiting, w)
    end.
Proof.
  unfold scanNearby_fetched, fetchNearby_fetched, discovery_error. run_M.
  destruct res as [r|message]; simpl; [|done]. by destruct (resp_ok r).
Qed.

Lemma scanNearby_parsed_eq p json w :
  scanNearby_parsed p json w
  = match json with
    | Ok data => scanNearby_rest p (default [] (elements data)) w
    | Throw e =>
        (Ok (), set_status [Lit "Status: "; Lit "No places found in radius"] w)
    end.
Proof.
  unfold scanNearby_parsed, fetchNearby_parsed. run_M. by destruct json.
Qed.

Lemma routeTo_fetched_eq res w :
  routeTo_fetched res w
  = match routing_error res with
    | Some e =>
        (Ok (Finished ()),
         set_status (Lit "Status: " :: Lit "Routing failed: " :: e) w)
    | None => (Ok Awaiting, w)
    end.
Proof.
  unfold routeTo_fetched, routing_error. run_M.
  destruct res as [r|message]; simpl; [|done]. by destruct (resp_ok r).
Qed.

(** What [routeTo] leaves alone once the answer is parsed. *)
Lemma routeTo_parsed_frame json w :
  (routeTo_parsed json w).1 = Ok ()
  ∧ meMarker (exec (routeTo_parsed json) w) = meMarker w
  ∧ sent (exec (routeTo_parsed json) w) = sent w
  ∧ results (exec (routeTo_parsed json) w) = results w
  ∧ placeMarkers (exec (routeTo_parsed json) w) = placeMarkers w.
Proof.
  unfold routeTo_parsed. run_M. destruct json as [j|e]; simpl; [|done].
  destruct (routeLayer w), (routes j) as [[|r0 rest]|]; done.
Qed.

Lemma clearRoute_click_places w :
  (clearRoute_click w).1 = Ok ()
  ∧ sent (exec clearRoute_click w) = sent w
  ∧ results (exec clearRoute_click w) = results w
  ∧ placeMarkers (exec clearRoute_click w) = placeMarkers w.
Proof. unfold clearRoute_click. run_M. by destruct (routeLayer w). Qed.

(** What a discovery cycle leaves alone once the elements have arrived. *)
Lemma scanNearby_rest_frame p elems w :
  meMarker (exec (scanNearby_rest p elems) w) = meMarker w
  ∧ sent (exec (scanNearby_rest p elems) w) = sent w
  ∧ routeLayer (exec (scanNearby_rest p elems) w) = routeLayer w
  ∧ mapLayers (exec (scanNearby_rest p elems) w) = mapLayers w
  ∧ mapView (exec (scanNearby_rest p elems) w) = mapView w.
Proof.
  unfold exec. rewrite scanNearby_rest_eq. simpl.
  by repeat case_bool_decide.
Qed.

(** ** Invariants of the page *)

Lemma item_click_eq it w :
  item_click it w
  = routeTo_call (item_dest it).1 (item_dest it).2
      (set_mapView (ViewAt (item_dest it).1 (item_dest it).2 16) w).
Proof. reflexivity. Qed.

Lemma start_route_call_meMarker destLat destLon a :
  meMarker (shown (start_route (routeTo_call destLat destLon) a))
  = meMarker (shown a).
Proof.
  unfold start_route. destruct (meMarker (shown a)) as [p|] eqn:Hme.
  - by rewrite (routeTo_call_located _ p _ _ Hme).
  - by rewrite (routeTo_call_unlocated _ _ _ Hme).
Qed.

Lemma start_route_click_meMarker it a :
  meMarker (shown (start_route (item_click it) a)) = meMarker (shown a).
Proof.
  unfold start_route. rewrite item_click_eq.
  set (w := set_mapView _ (shown a)).
  destruct (meMarker (shown a)) as [p|] eqn:Hme.
  - by rewrite (routeTo_call_located w p _ _ Hme).
  - by rewrite (routeTo_call_unlocated w _ _ Hme).
Qed.

(** The position after an event: the one a position callback brings, and
    else the one there was. *)
Lemma dispatch_meMarker a ev :
  meMarker (shown (dispatch a ev))
  = match ev with
    | Located lat lon _ => Some (LatLng lat lon)
    | _ => meMarker (shown a)
    end.
Proof.
  destruct a as [w ts]. destruct ev; cbn [dispatch shown tasks].
  - unfold exec. by rewrite on_position_eq.
  - done.
  - unfold exec. rewrite locate_click_eq.
    by destruct (meMarker w) eqn:Hme.
  - destruct (meMarker w) as [p|] eqn:Hme.
    + by rewrite (scanNearby_call_located w p Hme).
    + by rewrite (scanNearby_call_unlocated w Hme).
  - apply clearRoute_click_frame.
  - destruct (results w !! i); [|done]. apply start_route_click_meMarker.
  - destruct (placeMarkers w !! i) as [[? ? ? ? [dest|]]|]; try done.
    apply start_route_call_meMarker.
  - done.
  - done.
  - destruct (ts !! i) as [[| |p|p]|]; try done.
    rewrite scanNearby_fetched_eq. by destruct (discovery_error res).
  - destruct (ts !! i) as [[| |p|p]|]; try done. cbn [shown].
    unfold exec. rewrite scanNearby_parsed_eq. destruct json as [data|e]; [|done].
    apply scanNearby_rest_frame.
  - destruct (ts !! i) as [[| |p|p]|]; try done.
    rewrite routeTo_fetched_eq. by destruct (routing_error res).
  - destruct (ts !! i) as [[| |p|p]|]; try done. cbn [shown].
    apply routeTo_parsed_frame.
Qed.

Lemma play_snoc evs ev : play (evs ++ [ev]) = dispatch (play evs) ev.
Proof. unfold play. by rewrite foldl_snoc. Qed.

Lemma dispatch_nothing_yet a ev :
  (meMarker (shown a) = None -> nothing_yet a) ->
  meMarker (shown (dispatch a ev)) = None -> nothing_yet (dispatch a ev).
Proof.
  intros Hinv Hnone. rewrite dispatch_meMarker in Hnone.
  destruct a as [w ts].
  destruct ev; try done; cbn [shown] in Hnone;
    destruct (Hinv Hnone) as (Hts & Hsent & Hres & Hpm & Hslot & Hmap);
    cbn [shown tasks] in *; subst ts; unfold nothing_yet;
    cbn [dispatch shown tasks].
  - done.
  - unfold exec. rewrite locate_click_eq, Hnone. done.
  - by rewrite (scanNearby_call_unlocated w Hnone).
  - unfold exec, clearRoute_click. run_M. by rewrite Hslot.
  - by rewrite Hres.
  - by rewrite Hpm.
  - done.
  - done.
  - done.
  - done.
  - done.
  - done.
Qed.

(** X4: as long as no position callback has come, whatever is clicked,
    typed or settled, the page has sent no request, has no call suspended,
    and shows no place and no route. *)
Theorem nothing_before_position (evs : list event) :
  meMarker (shown (play evs)) = None -> nothing_yet (play evs).
Proof.
  induction evs as [|ev evs IH] using rev_ind.
  - intros _. by repeat split.
  - rewrite play_snoc. by apply dispatch_nothing_yet.
Qed.

Lemma nothing_before_position_witness :
  meMarker (shown (play [ClickScan; ClickItem 0; ClickClearRoute;
                         TypeRadius "500"])) = None
  ∧ sent (shown (play [ClickScan; ClickItem 0; ClickClearRoute;
                       TypeRadius "500"])) = [].
Proof.
  split; [reflexivity|].
  apply (nothing_before_position
           [ClickScan; ClickItem 0; ClickClearRoute; TypeRadius "500"]).
  reflexivity.
Defined.

(** X5: the position of the page is the one the latest position callback
    brought: each callback replaces it, and no click, no change of the form
    and no answer of the network changes or loses it. *)
Theorem position_is_latest (evs : list event) :
  meMarker (shown (play evs)) = last (omap position_of evs).
Proof.
  induction evs as [|ev evs IH] using rev_ind; [done|].
  rewrite play_snoc, dispatch_meMarker, omap_app, IH.
  destruct ev; cbn [omap position_of list_omap];
    rewrite ?app_nil_r; try done.
  by rewrite last_snoc.
Qed.

(** Each event leaves the page as it is or is one step of the page. *)
Lemma dispatch_step a ev :
  shown (dispatch a ev) = shown a ∨ step (shown a) (shown (dispatch a ev)).
Proof.
  assert (∀ m, shown (start_route m a) = exec m (shown a)) as Hstart.
  { intros m. unfold start_route, exec.
    by destruct (m (shown a)) as [[[]|] w]. }
  destruct a as [w ts]. destruct ev; cbn [dispatch shown tasks] in *.
  - right. apply step_position.
  - right. apply step_geo_error.
  - right. apply step_locate.
  - right. replace (shown _) with (exec scanNearby_call w).
    + apply step_scan_call.
    + unfold exec. by destruct (scanNearby_call w) as [[[]|] w'].
  - right. apply step_clear.
  - destruct (results w !! i); [|by left].
    right. rewrite Hstart. apply step_item_click.
  - destruct (placeMarkers w !! i) as [[? ? ? ? [dest|]]|]; try by left.
    right. rewrite Hstart. apply step_route_call.
  - right. apply step_type_radius.
  - right. apply step_check.
  - destruct (ts !! i) as [[| |p|p]|]; try by left.
    right. replace (shown _) with (exec (scanNearby_fetched p res) w).
    + apply step_scan_fetched.
    + unfold exec. by destruct (scanNearby_fetched p res w) as [[[]|] w'].
  - destruct (ts !! i) as [[| |p|p]|]; try by left.
    right. apply step_scan_parsed.
  - destruct (ts !! i) as [[| |p|p]|]; try by left.
    right. replace (shown _) with (exec (routeTo_fetched res) w).
    + apply step_route_fetched.
    + unfold exec. by destruct (routeTo_fetched res w) as [[[]|] w'].
  - destruct (ts !! i) as [[| |p|p]|]; try by left.
    right. apply step_route_parsed.
Qed.

Lemma play_reachable evs : rtc step world0 (shown (play evs)).
Proof.
  induction evs as [|ev evs IH] using rev_ind; [apply rtc_refl|].
  rewrite play_snoc. destruct (dispatch_step (play evs) ev) as [->|Hstep].
  - exact IH.
  - by eapply rtc_r.
Qed.

(** X6: whatever the events, the map shows at most one route, and a route
    on the map is the one the slot [routeLayer] holds: routes are replaced
    or removed, never stacked. *)
Theorem route_never_stacked (evs : list event) :
  length (mapLayers (shown (play evs))) ≤ 1
  ∧ Forall (fun l => routeLayer (shown (play evs)) = Some l)
      (mapLayers (shown (play evs))).
Proof.
  destruct (reachable_route_inv _ (play_reachable evs)) as [->|(l & Hl & ->)].
  - split; [simpl; lia|constructor].
  - split; [simpl; lia|]. by repeat constructor.
Qed.

(** The name in the popup of a marker is the name in the list. *)
Lemma marker_name_list_name v :
  v ≠ JUndefined -> v ≠ JNull -> marker_name v = list_name v.
Proof.
  intros Hu Hn. unfold marker_name, list_name.
  destruct (get_prop_total v "name" Hu Hn) as [n Hname].
  destruct (get_prop_total v "amenity" Hu Hn) as [a Ha].
  rewrite Hname, Ha. simpl.
  destruct (truthy v) eqn:Hv; simpl.
  - destruct (truthy n) eqn:Htn; simpl.
    + unfold js_or. by rewrite Htn.
    + by rewrite ?Ha.
  - assert (n = JUndefined ∧ a = JUndefined) as [-> ->].
    { destruct v; simpl in *; try done; by simplify_eq. }
    simpl. unfold js_or. by rewrite Hv.
Qed.

Lemma rank_places_same_place w p elems :
  let out :=
    rank_places (ll_lat p) (ll_lng p)
      (filter (fun q => q.2 ∈ okTypes_of w)
         (map (fun e => (copy_element e, category_of (copy_element e))) elems)) in
  Forall2 same_place (map marker_of out) (map (item_of (ll_lat p) (ll_lng p)) out).
Proof.
  intros out. apply Forall2_fmap, Forall_Forall2_diag, Forall_forall.
  intros q Hq. unfold out in Hq. rewrite rank_places_perm in Hq.
  apply list_elem_of_fmap in Hq as [[e c] [-> Hq]].
  apply list_elem_of_filter in Hq as [Hok Hq].
  apply list_elem_of_fmap in Hq as [e0 [[= -> ->] _]].
  destruct (js_or_obj_not_nullish (tags e0)) as [Hu Hn].
  unfold same_place, marker_of, item_of, with_dist. cbn.
  rewrite (marker_name_list_name _ Hu Hn).
  split_and!; try done.
  intros Hun. cbn in Hok. rewrite Hun in Hok.
  by apply okTypes_of_not_unknown in Hok.
Qed.

Lemma scanNearby_rest_same_place p elems w :
  Forall2 same_place (placeMarkers w) (results w) ->
  Forall2 same_place (placeMarkers (exec (scanNearby_rest p elems) w))
    (results (exec (scanNearby_rest p elems) w)).
Proof.
  intros Hinv.
  destruct (scanNearby_rest_shows p elems w) as (_ & -> & ->).
  apply Forall2_app; [done|apply rank_places_same_place].
Qed.

Lemma start_route_places m a :
  (∀ w, placeMarkers (exec m w) = placeMarkers w
        ∧ results (exec m w) = results w) ->
  placeMarkers (shown (start_route m a)) = placeMarkers (shown a)
  ∧ results (shown (start_route m a)) = results (shown a).
Proof.
  intros Hm. unfold start_route. specialize (Hm (shown a)). unfold exec in Hm.
  by destruct (m (shown a)) as [[[]|] w].
Qed.

Lemma routeTo_call_places destLat destLon w :
  placeMarkers (exec (routeTo_call destLat destLon) w) = placeMarkers w
  ∧ results (exec (routeTo_call destLat destLon) w) = results w.
Proof. unfold routeTo_call. run_M. by destruct (meMarker w). Qed.

Lemma dispatch_same_place a ev :
  Forall2 same_place (placeMarkers (shown a)) (results (shown a)) ->
  Forall2 same_place (placeMarkers (shown (dispatch a ev)))
    (results (shown (dispatch a ev))).
Proof.
  intros Hinv. destruct a as [w ts].
  destruct ev; cbn [dispatch shown tasks] in *.
  - unfold exec. by rewrite on_position_eq.
  - done.
  - unfold exec. rewrite locate_click_eq. by destruct (meMarker w).
  - destruct (meMarker w) as [p|] eqn:Hme.
    + rewrite (scanNearby_call_located w p Hme). constructor.
    + rewrite (scanNearby_call_unlocated w Hme). constructor.
  - by destruct (clearRoute_click_places w) as (_ & _ & -> & ->).
  - destruct (results w !! i) as [it|]; [|done].
    by destruct (start_route_places (item_click it) (Session w ts)
                   (fun w' => routeTo_call_places _ _ _)) as [-> ->].
  - destruct (placeMarkers w !! i) as [[? ? ? ? [dest|]]|]; try done.
    by destruct (start_route_places (routeTo_call dest.1 dest.2) (Session w ts)
                   (routeTo_call_places _ _)) as [-> ->].
  - done.
  - done.
  - destruct (ts !! i) as [[| |p|p]|]; try done.
    rewrite scanNearby_fetched_eq. by destruct (discovery_error res).
  - destruct (ts !! i) as [[| |p|p]|]; try done. cbn [shown].
    unfold exec. rewrite scanNearby_parsed_eq. destruct json as [data|e]; [|done].
    by apply scanNearby_rest_same_place.
  - destruct (ts !! i) as [[| |p|p]|]; try done.
    rewrite routeTo_fetched_eq. by destruct (routing_error res).
  - destruct (ts !! i) as [[| |p|p]|]; try done. cbn [shown].
    by destruct (routeTo_parsed_frame json w) as (_ & _ & _ & -> & ->).
Qed.

(** X7: whatever the events, the markers on the map and the items of the
    list go by pairs, in the same order: the marker and the item of a pair
    have the same position, the same name, category and distance in the
    popup as in the list, a click on either asks for the route to that
    position, and the category is never unknown. *)
Theorem markers_match_list (evs : list event) :
  Forall2 same_place (placeMarkers (shown (play evs)))
    (results (shown (play evs))).
Proof.
  induction evs as [|ev evs IH] using rev_ind; [constructor|].
  rewrite play_snoc. by apply dispatch_same_place.
Qed.

(** ** Discovery cycles *)

Lemma selected_length (ok : list category) (elems : list element) :
  length (filter (fun q : element * category => q.2 ∈ ok)
            (map (fun e => (copy_element e, category_of (copy_element e))) elems))
  = length (filter (fun e => category_of (copy_element e) ∈ ok) elems).
Proof.
  induction elems as [|e l IH]; [done|].
  cbn [map]. rewrite !filter_cons. cbn [snd].
  destruct (decide (category_of (copy_element e) ∈ ok)); simpl; lia.
Qed.

Lemma rank_places_length myLat myLon ps :
  length (rank_places myLat myLon ps) = length ps.
Proof. by rewrite rank_places_perm, length_map. Qed.

Lemma okTypes_of_checked (w : world) (c : category) :
  c ∈ okTypes_of w ↔ box_checked w c = true.
Proof.
  unfold okTypes_of.
  destruct c, (show_hospital w) eqn:Hh, (show_police w) eqn:Hp,
    (show_fire w) eqn:Hf, (show_shelter w) eqn:Hs;
    cbn [box_checked]; rewrite ?Hh, ?Hp, ?Hf, ?Hs; set_solver.
Qed.

Lemma filter_checked (w : world) (l : list (element * category)) :
  filter (fun q => q.2 ∈ okTypes_of w) l
  = filter (fun q => box_checked w q.2 = true) l.
Proof.
  induction l as [|q l IH]; [done|].
  rewrite !filter_cons, IH.
  destruct (decide (q.2 ∈ okTypes_of w)) as [Hin|Hout].
  - rewrite decide_True; [done|]. by apply okTypes_of_checked.
  - rewrite decide_False; [done|]. by rewrite <- okTypes_of_checked.
Qed.

(** X8: what a discovery cycle reports once the elements have arrived.  The
    list grows by the number of elements whose category has its box
    checked; the status line reads [No places found in radius] for an empty
    answer, [No selected-type places found] when no element has a checked
    category, and else [Found n place(s)] with that number. *)
Theorem scan_reports_count (p : latlng) (elems : list element) (w : world) :
  let n :=
    length (filter (fun e => box_checked w (category_of (copy_element e))
                             = true) elems) in
  length (results (exec (scanNearby_rest p elems) w))
  = length (results w) + n
  ∧ n ≤ length elems
  ∧ status (exec (scanNearby_rest p elems) w)
    = Lit "Status: "
      :: (if decide (elems = []) then [Lit "No places found in radius"]
          else if decide (n = 0) then [Lit "No selected-type places found"]
          else [Lit "Found "; Num (INR n); Lit " place(s)"]).
Proof.
  intros n.
  assert (length (filter (fun q => q.2 ∈ okTypes_of w)
            (map (fun e => (copy_element e, category_of (copy_element e))) elems))
          = n) as Hn.
  { rewrite selected_length. unfold n. clear.
    induction elems as [|e l IH]; [done|].
    rewrite !filter_cons.
    destruct (decide (category_of (copy_element e) ∈ okTypes_of w))
      as [Hin|Hout].
    - rewrite decide_True by (by apply okTypes_of_checked).
      cbn [length]. by rewrite IH.
    - rewrite decide_False by (by rewrite <- okTypes_of_checked). done. }
  split_and!.
  - destruct (scanNearby_rest_shows p elems w) as (_ & -> & _).
    by rewrite length_app, length_map, rank_places_length, Hn.
  - apply length_filter.
  - unfold exec. rewrite scanNearby_rest_eq. cbn [snd].
    rewrite rank_places_length, Hn.
    destruct (decide (elems = [])) as [->|Hne]; [done|].
    case_bool_decide as He; [by destruct elems|].
    case_bool_decide as Hs; by destruct (decide (n = 0)).
Qed.

(** X24: the places a discovery cycle adds to the list are the elements
    whose category has its box checked, each once, whatever the order the
    sort gives them: an element of another category, or of none, is never
    listed, and a checked one is never dropped. *)
Theorem scan_lists_checked_places (p : latlng) (elems : list element)
    (w : world) :
  ∃ out : list place,
    results (exec (scanNearby_rest p elems) w)
    = results w ++ map (item_of (ll_lat p) (ll_lng p)) out
    ∧ out ≡ₚ map (with_dist (ll_lat p) (ll_lng p))
               (filter (fun q => box_checked w q.2 = true)
                  (map (fun e => (copy_element e,
                                  category_of (copy_element e))) elems))
    ∧ Forall (fun q => box_checked w (p_type q) = true
                       ∧ p_type q = category_of (p_elem q)) out.
Proof.
  destruct (scanNearby_rest_shows p elems w) as (_ & Hres & _).
  eexists. split; [exact Hres|].
  rewrite filter_checked.
  split; [apply rank_places_perm|].
  apply Forall_forall. intros q Hq. rewrite rank_places_perm in Hq.
  apply list_elem_of_fmap in Hq as [[e c] [-> Hq]].
  apply list_elem_of_filter in Hq as [Hok Hq].
  apply list_elem_of_fmap in Hq as [e0 [[= -> ->] _]].
  done.
Qed.







(** ** Routes *)

(** X10: when the request of [routeTo] is rejected or answered with a
    status that is not a success, or when the body of a successful answer
    does not parse, [routeTo] does not throw and changes the status line
    only, to [Routing failed: ] followed by the error: the route slot and
    the route on the map stay as they were. *)
Theorem routeTo_failure_keeps_route (w : world)
  (res : result (response osrm_data)) (e message : text) :
  routing_error res = Some e ->
  routeTo_fetched res w
  = (Ok (Finished ()),
     set_status (Lit "Status: " :: Lit "Routing failed: " :: e) w)
  ∧ routeTo_parsed (Throw message) w
    = (Ok (), set_status (Lit "Status: " :: Lit "Routing failed: " :: message) w).
Proof.
  intros He. split; [|reflexivity].
  by rewrite routeTo_fetched_eq, He.
Qed.

Lemma routeTo_failure_keeps_route_witness :
  routing_error (Ok (Response 503 (Throw []))) = Some [Lit "Routing error "; Num 503]
  ∧ mapLayers (exec (routeTo_fetched (Ok (Response 503 (Throw [])))) world_routed)
    = mapLayers world_routed.
Proof.
  split; [reflexivity|].
  destruct (routeTo_failure_keeps_route world_routed
              (Ok (Response 503 (Throw []))) _ [] eq_refl) as [Hf _].
  unfold exec. rewrite Hf. reflexivity.
Defined.

(** X11: a route on display stays on the map while the route to a new
    destination is requested and awaited; it is when the answer is parsed
    that it is taken off, and a route that is found then stands alone on the
    map, a new layer in the slot. *)
Theorem new_route_replaces_old (w : world) (p : latlng) (destLat destLon : R)
  (r : response osrm_data) (j : osrm_data) (r0 : osrm_route)
  (rest : list osrm_route) :
  meMarker w = Some p ->
  route_inv w ->
  resp_ok r = true ->
  routes j = Some (r0 :: rest) ->
  let requested := exec (routeTo_call destLat destLon) w in
  let fetched := exec (routeTo_fetched (Ok r)) requested in
  let parsed := exec (routeTo_parsed (Ok j)) fetched in
  mapLayers requested = mapLayers w ∧ routeLayer requested = routeLayer w
  ∧ mapLayers fetched = mapLayers w ∧ routeLayer fetched = routeLayer w
  ∧ mapLayers parsed = [Layer (allocated w) (geometry r0)]
  ∧ routeLayer parsed = Some (Layer (allocated w) (geometry r0))
  ∧ mapView parsed = ViewFit (Layer (allocated w) (geometry r0))
  ∧ allocated parsed = S (allocated w).
Proof.
  intros Hme Hinv Hok Hj requested fetched parsed.
  assert (fetched = requested) as Hf.
  { unfold fetched, exec. by rewrite routeTo_fetched_ok. }
  assert (mapLayers requested = mapLayers w
          ∧ routeLayer requested = routeLayer w
          ∧ allocated requested = allocated w) as (Hm & Hl & Ha).
  { unfold requested, exec. by rewrite (routeTo_call_located w p _ _ Hme). }
  assert (route_inv requested) as Hinv'.
  { by apply (route_inv_frame w). }
  rewrite Hf. split_and!; try done.
  - unfold parsed. rewrite Hf.
    destruct (routeTo_parsed_route_inv requested j r0 rest Hinv' Hj) as [_ ->].
    by rewrite Ha.
  - unfold parsed. rewrite Hf.
    destruct (routeTo_parsed_route_inv requested j r0 rest Hinv' Hj) as [-> _].
    by rewrite Ha.
  - unfold parsed. rewrite Hf. unfold routeTo_parsed. run_M.
    destruct (routeLayer requested); simpl; rewrite Hj; simpl; by rewrite Ha.
  - unfold parsed. rewrite Hf. unfold routeTo_parsed. run_M.
    destruct (routeLayer requested); simpl; rewrite Hj; simpl; by rewrite Ha.
Qed.

Lemma new_route_replaces_old_witness :
  meMarker world_routed = Some (LatLng 20 78)
  ∧ route_inv world_routed
  ∧ resp_ok (Response 200 (Ok sample_route)) = true
  ∧ routes sample_route
    = Some [OsrmRoute (JObj {["type" := JStr "LineString"]}) 1200 90]
  ∧ mapLayers
      (exec (routeTo_parsed (Ok sample_route))
         (exec (routeTo_fetched (Ok (Response 200 (Ok sample_route))))
            (exec (routeTo_call 21 79) world_routed)))
    = [Layer 1 (JObj {["type" := JStr "LineString"]})].
Proof.
  assert (route_inv world_routed) as Hinv.
  { right. eexists. split; reflexivity. }
  split; [reflexivity|]. split; [exact Hinv|].
  split; [reflexivity|]. split; [reflexivity|].
  destruct (new_route_replaces_old world_routed (LatLng 20 78) 21 79
              (Response 200 (Ok sample_route)) sample_route
              (OsrmRoute (JObj {["type" := JStr "LineString"]}) 1200 90) []
              eq_refl Hinv eq_refl eq_refl) as (_ & _ & _ & _ & Hm & _).
  exact Hm.
Defined.

(** X12: a clear command in state Active takes the route off the map,
    empties the slot and reports [Route cleared]: the state is Idle. *)
Theorem clear_when_active_idle (c : coordinator) :
  phase_of c = Some Active ->
  phase_of (handle c ClearRoute) = Some Idle
  ∧ mapLayers (page (handle c ClearRoute)) = []
  ∧ routeLayer (page (handle c ClearRoute)) = None
  ∧ status (page (handle c ClearRoute)) = [Lit "Status: "; Lit "Route cleared"].
Proof.
  destruct c as [w fl]. unfold phase_of. cbn [page inflight].
  destruct fl; [|done].
  destruct (routeLayer w) as [l|] eqn:Hl; [|by destruct (mapLayers w)].
  destruct (mapLayers w) as [|l' [|? ?]] eqn:Hm; try done.
  case_decide as Hid; [|done]. intros _.
  rewrite handle_clear. cbn [page inflight].
  unfold exec, clearRoute_click. run_M. rewrite Hl. simpl. rewrite Hm.
  rewrite filter_cons. case_decide; [congruence|]. done.
Qed.

Lemma clear_when_active_idle_witness :
  phase_of (Coordinator world_routed []) = Some Active
  ∧ phase_of (handle (Coordinator world_routed []) ClearRoute) = Some Idle.
Proof.
  split; [reflexivity|].
  apply (clear_when_active_idle (Coordinator world_routed [])). reflexivity.
Defined.

(** ** Classification *)

(** X13: classification reads the tags [amenity] and [emergency] and no
    other: adding, changing or removing any other tag of an element leaves
    its category as it was. *)
Theorem classify_reads_two_tags (i : jsval) (la lo : R)
  (m : gmap string jsval) (k : string) (v : jsval) :
  k ≠ "amenity" -> k ≠ "emergency" ->
  classify (Element i la lo (JObj (<[k := v]> m)))
  = classify (Element i la lo (JObj m))
  ∧ classify (Element i la lo (JObj (delete k m)))
    = classify (Element i la lo (JObj m)).
Proof.
  intros Ha He. unfold classify, js_or. cbn [tags truthy get_prop].
  by rewrite !lookup_insert_ne, !lookup_delete_ne.
Qed.

Lemma classify_reads_two_tags_witness :
  "name" ≠ "amenity" ∧ "name" ≠ "emergency"
  ∧ classify (Element (JNum 1) 20 78
                (JObj (<["name" := JStr "City Hospital"]>
                         {["amenity" := JStr "hospital"]})))
    = classify (Element (JNum 1) 20 78 (JObj {["amenity" := JStr "hospital"]})).
Proof.
  split; [done|]. split; [done|].
  apply (classify_reads_two_tags (JNum 1) 20 78
           {["amenity" := JStr "hospital"]} "name" (JStr "City Hospital"));
    done.
Defined.

(** ** The radius field *)

Lemma digit_cases (d : N) :
  (d < 10)%N ->
  d ∈ [0; 1; 2; 3; 4; 5; 6; 7; 8; 9]%N.
Proof.
  intros Hd.
  assert (d = 0 ∨ d = 1 ∨ d = 2 ∨ d = 3 ∨ d = 4 ∨ d = 5 ∨ d = 6 ∨ d = 7
          ∨ d = 8 ∨ d = 9)%N as H by lia.
  set_solver.
Qed.

Lemma digit_val_pretty (d : N) :
  (d < 10)%N -> digit_val 10 (pretty_N_char d) = Some (Z.of_N d).
Proof.
  intros Hd%digit_cases.
  repeat (apply elem_of_cons in Hd as [->|Hd]; [reflexivity|]).
  by apply elem_of_nil in Hd.
Qed.

(** A string that starts with a digit from 1 to 9 is read in base ten from
    its first character. *)
Lemma mathInt_head (d : N) (rest : string) :
  (0 < d < 10)%N ->
  mathInt (String (pretty_N_char d) rest)
  = digits_value 10 (String (pretty_N_char d) rest) None.
Proof.
  intros [Hd0 Hd%digit_cases].
  assert (∀ c : ascii,
            c ∈ ["1"; "2"; "3"; "4"; "5"; "6"; "7"; "8"; "9"]%char ->
            mathInt (String c rest) = digits_value 10 (String c rest) None)
    as Hc.
  { intros c Hin.
    assert (trim_start (String c rest) = String c rest) as Ht.
    { cbn [trim_start].
      assert (ws1 c = false) as ->.
      { repeat (apply elem_of_cons in Hin as [->|Hin]; [reflexivity|]).
        by apply elem_of_nil in Hin. }
      destruct rest as [|c2 [|c3 r]]; try done.
      - assert (ws2 c c2 = false) as ->; [|done].
        unfold ws2. case_bool_decide as H; [|done]. destruct H as [H _].
        repeat (apply elem_of_cons in Hin as [->|Hin]; [done|]).
        by apply elem_of_nil in Hin.
      - assert (ws2 c c2 = false) as ->.
        { unfold ws2. case_bool_decide as H; [|done]. destruct H as [H _].
          repeat (apply elem_of_cons in Hin as [->|Hin]; [done|]).
          by apply elem_of_nil in Hin. }
        assert (ws3 c c2 c3 = false) as ->; [|done].
        unfold ws3.
        assert (code c ∉ [225; 226; 227; 239]%N) as Hcode.
        { repeat (apply elem_of_cons in Hin as [->|Hin];
                  [vm_compute; set_solver|]).
          by apply elem_of_nil in Hin. }
        repeat case_bool_decide; simplify_eq; try done;
          try (destruct_and?; set_solver); set_solver. }
    unfold mathInt. rewrite Ht.
    assert (strip_sign (String c rest) = (1%Z, String c rest)) as ->.
    { repeat (apply elem_of_cons in Hin as [->|Hin]; [reflexivity|]).
      by apply elem_of_nil in Hin. }
    assert (strip_prefix (String c rest) = (10%Z, String c rest)) as ->.
    { repeat (apply elem_of_cons in Hin as [->|Hin]; [reflexivity|]).
      by apply elem_of_nil in Hin. }
    destruct (digits_value 10 (String c rest) None) as [n|]; simpl; [|done].
    f_equal. lia. }
  apply elem_of_cons in Hd as [->|Hd]; [lia|].
  apply Hc.
  repeat (apply elem_of_cons in Hd as [->|Hd]; [set_solver|]).
  by apply elem_of_nil in Hd.
Qed.

Lemma digits_value_pretty_go (x : N) (s : string) :
  digits_value 10 (pretty_N_go x s) None
  = digits_value 10 s (if decide (x = 0%N) then None else Some (Z.of_N x)).
Proof.
  revert s. induction (N.lt_wf_0 x) as [x _ IH]. intros s.
  destruct (decide (x = 0%N)) as [->|Hx]; [by rewrite pretty_N_go_0|].
  rewrite pretty_N_go_step by lia.
  rewrite IH by (apply N.div_lt; lia).
  cbn [digits_value].
  rewrite digit_val_pretty by (apply N.mod_lt; lia).
  f_equal. f_equal.
  pose proof (N.div_mod x 10 ltac:(lia)) as Hdm.
  destruct (decide ((x `div` 10)%N = 0%N)) as [H0|H0]; simpl.
  - rewrite H0 in Hdm. lia.
  - lia.
Qed.

Lemma pretty_go_head (x : N) (s : string) :
  (0 < x)%N ->
  ∃ d rest, (0 < d < 10)%N ∧ pretty_N_go x s = String (pretty_N_char d) rest.
Proof.
  revert s. induction (N.lt_wf_0 x) as [x _ IH]. intros s Hx.
  rewrite pretty_N_go_step by done.
  destruct (decide (x < 10)%N) as [Hlt|Hge].
  - rewrite N.div_small, N.mod_small, pretty_N_go_0 by done.
    exists x, s. split; [lia|done].
  - apply IH; [apply N.div_lt; lia|].
    apply N.div_str_pos. lia.
Qed.

Lemma pretty_go_append (x : N) (s t : string) :
  pretty_N_go x s +:+ t = pretty_N_go x (s +:+ t).
Proof.
  revert s. induction (N.lt_wf_0 x) as [x _ IH]. intros s.
  destruct (decide (x = 0%N)) as [->|Hx]; [by rewrite !pretty_N_go_0|].
  rewrite (pretty_N_go_step x s), (pretty_N_go_step x (s +:+ t)) by lia.
  rewrite IH by (apply N.div_lt; lia). done.
Qed.

(** X15: a radius typed as a whole number from 1 to 2^53 in decimal, alone
    or followed by text that does not begin with a digit (a unit such as
    [m]), is the radius that [scanNearby] uses. *)
Theorem radius_as_typed (n : N) (suffix : string) :
  (0 < n ≤ 2 ^ 53)%N ->
  (∀ c r, suffix = String c r -> digit_val 10 c = None) ->
  radius_of (pretty n +:+ suffix) = Integer (Z.of_N n).
Proof.
  intros [Hn Hmax] Hsuffix.
  unfold pretty, pretty_N. rewrite decide_False by lia.
  rewrite pretty_go_append. change (EmptyString +:+ suffix) with suffix.
  unfold radius_of, parseInt.
  destruct (pretty_go_head n suffix Hn) as (d & rest & Hd & Heq).
  assert (mathInt (pretty_N_go n suffix) = Some (Z.of_N n)) as ->.
  { rewrite Heq, mathInt_head by done. rewrite <- Heq.
    rewrite digits_value_pretty_go, decide_False by lia.
    destruct suffix as [|c r]; [done|].
    cbn [digits_value]. by rewrite (Hsuffix c r eq_refl). }
  rewrite to_double_exact.
  - destruct (Z.of_N n) eqn:Hz; [lia|done|lia].
  - rewrite Z.abs_eq by lia.
    apply (N2Z.inj_le n (2 ^ 53)) in Hmax.
    by rewrite N2Z.inj_pow in Hmax.
Qed.

Lemma radius_as_typed_witness :
  radius_of "1500m" = Integer 1500.
Proof.
  apply (radius_as_typed 1500 "m"); [split; [lia|by vm_compute]|].
  intros c r [= <- <-]. reflexivity.
Defined.

(** ** The seeding script *)

Ltac div_mod_lia :=
  unfold BATCH_LIMIT in *; zify; Z.to_euclidean_division_equations; lia.

Section SeedFacts.
Context {doc : Type} (new_report : nat -> doc) (commit_ok : nat -> bool).

Lemma seed_inv_start :
  seed_inv new_report commit_ok 0 (Seeding [] 0 []).
Proof.
  split; [split_and!|done].
  - constructor.
  - done.
  - intros j Hj. cbn [length committed] in Hj. lia.
Qed.

Lemma loop_body_spec (i : nat) (s : seeding doc) :
  seed_inv new_report commit_ok i s ->
  match loop_body new_report commit_ok i s with
  | Resolved s' => seed_inv new_report commit_ok (S i) s'
  | Rejected s' =>
      written_inv new_report commit_ok s' ∧
      commit_ok (length (committed s')) = false ∧
      BATCH_LIMIT * length (committed s') <= i
  end.
Proof.
  intros ((Hfull & Hcat & Hok) & Hcnt & Hlen & Hbatch).
  assert (batch s ++ [new_report i]
          = map new_report (seq (BATCH_LIMIT * (i / BATCH_LIMIT))
                                (S (i mod BATCH_LIMIT)))) as Hbatch'.
  { rewrite Hbatch, seq_S, map_app. f_equal. cbn [map]. do 2 f_equal.
    div_mod_lia. }
  unfold loop_body. cbn [counter batch committed]. rewrite Hcnt.
  destruct (decide (S i mod BATCH_LIMIT = 0)) as [Hfullb|Hpart].
  - assert (S (i mod BATCH_LIMIT) = BATCH_LIMIT) as Hr by div_mod_lia.
    assert (S i / BATCH_LIMIT = S (i / BATCH_LIMIT)) as Hq by div_mod_lia.
    unfold commit. cbn [counter batch committed].
    destruct (commit_ok (length (committed s))) eqn:Hc;
      cbn [and_then counter batch committed].
    + repeat split; cbn [counter batch committed].
      * apply Forall_app. split; [done|].
        constructor; [|constructor].
        rewrite Hbatch', length_map, length_seq. done.
      * rewrite concat_app, Hcat, Hbatch', Hr, length_app.
        cbn [concat length].
        rewrite app_nil_r, <- map_app, Nat.mul_add_distr_l, Nat.mul_1_r.
        rewrite seq_app, Hlen. done.
      * intros j Hj. rewrite length_app in Hj. cbn [length] in Hj.
        destruct (decide (j = length (committed s))) as [->|Hne]; [done|].
        apply Hok. lia.
      * rewrite length_app, Hlen, Hq. cbn [length]. lia.
      * rewrite Hfullb. done.
    + repeat split; try done. rewrite Hlen. div_mod_lia.
  - repeat split; try done; cbn [counter batch committed].
    + rewrite Hlen. div_mod_lia.
    + rewrite Hbatch'.
      replace (S i / BATCH_LIMIT) with (i / BATCH_LIMIT) by div_mod_lia.
      replace (S i mod BATCH_LIMIT) with (S (i mod BATCH_LIMIT))
        by div_mod_lia.
      done.
Qed.

Lemma loop_spec (n i : nat) (s : seeding doc) :
  seed_inv new_report commit_ok i s ->
  match loop new_report commit_ok n i s with
  | Resolved s' => seed_inv new_report commit_ok (i + n) s'
  | Rejected s' =>
      written_inv new_report commit_ok s' ∧
      commit_ok (length (committed s')) = false ∧
      BATCH_LIMIT * length (committed s') < i + n
  end.
Proof.
  revert i s. induction n as [|n IH]; intros i s Hinv.
  - cbn [loop]. by rewrite Nat.add_0_r.
  - cbn [loop]. pose proof (loop_body_spec i s Hinv) as Hbody.
    destruct (loop_body new_report commit_ok i s) as [s1|s1];
      cbn [and_then].
    + pose proof (IH (S i) s1 Hbody) as Hrest.
      replace (i + S n) with (S i + n) by lia. done.
    + destruct Hbody as (Hw & Hc & Hle). split_and!; [done..|].
      unfold BATCH_LIMIT in *. lia.
Qed.

End SeedFacts.

(** X16: When the store accepts the commits, [generateReports] writes the
    [count] reports exactly once and in order, in batches that are never
    empty and never larger than the store's limit of 500, using as few
    commits as that limit allows; the count it reports at the end is
    [count]. *)
Theorem generateReports_batches {doc : Type} (new_report : nat -> doc)
    (commit_ok : nat -> bool) (count : nat) :
  (∀ k, BATCH_LIMIT * k < count -> commit_ok k = true) ->
  ∃ s, generateReports new_report commit_ok count = Resolved s ∧
       counter s = count ∧
       concat (committed s) = map new_report (seq 0 count) ∧
       Forall (fun b => 0 < length b <= BATCH_LIMIT) (committed s) ∧
       length (committed s) = (count + (BATCH_LIMIT - 1)) / BATCH_LIMIT.
Proof.
  intros Hok. unfold generateReports.
  pose proof (loop_spec new_report commit_ok count 0 _
                (seed_inv_start new_report commit_ok)) as Hloop.
  destruct (loop new_report commit_ok count 0 _) as [s|s]; cbn [and_then].
  - rewrite Nat.add_0_l in Hloop.
    destruct Hloop as ((Hfull & Hcat & _) & Hcnt & Hlen & Hbatch).
    assert (Forall (fun b : list doc => 0 < length b <= BATCH_LIMIT)
                   (committed s)) as Hfull'.
    { eapply Forall_impl; [exact Hfull|].
      intros b Hb. cbn beta in Hb. rewrite Hb. unfold BATCH_LIMIT. lia. }
    rewrite Hcnt.
    destruct (decide (count mod BATCH_LIMIT ≠ 0)) as [Hrem|Hnone].
    + unfold commit. rewrite Hlen, Hok by div_mod_lia.
      eexists. split; [reflexivity|]. cbn [counter committed].
      split_and!.
      * done.
      * rewrite concat_app, Hcat, Hbatch, Hlen. cbn [concat].
        rewrite app_nil_r, <- map_app, <- seq_app. do 2 f_equal.
        div_mod_lia.
      * apply Forall_app. split; [done|].
        constructor; [|constructor].
        rewrite Hbatch, length_map, length_seq. div_mod_lia.
      * rewrite length_app, Hlen. cbn [length]. div_mod_lia.
    + exists s. split_and!; try done.
      * rewrite Hcat, Hlen. do 2 f_equal. div_mod_lia.
      * rewrite Hlen. div_mod_lia.
  - destruct Hloop as (_ & Hc & Hlt). rewrite Hok in Hc; [done|lia].
Qed.

Lemma generateReports_batches_witness :
  ∃ s, generateReports (fun i => i) (fun _ => true) 1201 = Resolved s ∧
       counter s = 1201 ∧
       concat (committed s) = map (fun i => i) (seq 0 1201) ∧
       Forall (fun b => 0 < length b <= BATCH_LIMIT) (committed s) ∧
       length (committed s) = (1201 + (BATCH_LIMIT - 1)) / BATCH_LIMIT.
Proof.
  apply (generateReports_batches (fun i => i) (fun _ => true) 1201).
  intros k _. reflexivity.
Defined.

(** X17: When the store rejects a commit, [generateReports] is rejected at
    the first such commit, and what it has written by then are the full
    batches before it: the first [500 * k] reports, [k] being the number of
    the rejected commit. *)
Theorem generateReports_rejected {doc : Type} (new_report : nat -> doc)
    (commit_ok : nat -> bool) (count k : nat) :
  (∀ j, j < k -> commit_ok j = true) ->
  commit_ok k = false ->
  BATCH_LIMIT * k < count ->
  ∃ s, generateReports new_report commit_ok count = Rejected s ∧
       length (committed s) = k ∧
       concat (committed s) = map new_report (seq 0 (BATCH_LIMIT * k)).
Proof.
  intros Hbefore Hk Hlt. unfold generateReports.
  pose proof (loop_spec new_report commit_ok count 0 _
                (seed_inv_start new_report commit_ok)) as Hloop.
  destruct (loop new_report commit_ok count 0 _) as [s|s]; cbn [and_then].
  - rewrite Nat.add_0_l in Hloop.
    destruct Hloop as ((Hfull & Hcat & Hok) & Hcnt & Hlen & Hbatch).
    assert (¬ k < length (committed s)) as Hge.
    { intros Hin. apply Hok in Hin. congruence. }
    assert (length (committed s) = k ∧ count mod BATCH_LIMIT ≠ 0)
      as [Hlenk Hrem] by div_mod_lia.
    rewrite Hcnt. rewrite decide_True by done.
    unfold commit. rewrite Hlenk, Hk.
    exists s. split_and!; [done..|]. by rewrite Hcat, Hlenk.
  - destruct Hloop as ((Hfull & Hcat & Hok) & Hc & _).
    assert (length (committed s) = k) as Hlenk.
    { destruct (Nat.lt_trichotomy (length (committed s)) k)
        as [Hl|[He|Hg]]; [|done|].
      - apply Hbefore in Hl. congruence.
      - apply Hok in Hg. congruence. }
    exists s. split_and!; [done..|]. by rewrite Hcat, Hlenk.
Qed.

Lemma generateReports_rejected_witness :
  ∃ s, generateReports (fun i => i) (fun k => k <? 2) 1201 = Rejected s ∧
       length (committed s) = 2 ∧
       concat (committed s) = map (fun i => i) (seq 0 (BATCH_LIMIT * 2)).
Proof.
  apply (generateReports_rejected (fun i => i) (fun k => k <? 2) 1201 2).
  - intros [|[|j]] Hj; [reflexivity|reflexivity|lia].
  - reflexivity.
  - unfold BATCH_LIMIT. lia.
Defined.

(** ** The chat window *)




(** ** The side bar *)

Lemma drawer_dispatch_in_step (d : drawer) (ev : drawer_event) :
  ("active" ∈ sidebar d ↔ "active" ∈ overlay d) ->
  let d' := drawer_dispatch d ev in
  ("active" ∈ sidebar d' ↔ "active" ∈ overlay d') ∧
  aria_expanded d'
  = Some (String_of_bool (bool_decide ("active" ∈ sidebar d'))) ∧
  sidebar d' ∖ {["active"]} = sidebar d ∖ {["active"]} ∧
  overlay d' ∖ {["active"]} = overlay d ∖ {["active"]}.
Proof.
  intros Hsync. destruct ev; cbn zeta; cbn [drawer_dispatch].
  - unfold toggleBtn_click, classList_toggle.
    destruct (decide ("active" ∈ sidebar d)) as [Hs|Hs];
      destruct (decide ("active" ∈ overlay d)) as [Ho|Ho];
      try tauto; cbn [sidebar overlay aria_expanded].
    + rewrite bool_decide_eq_false_2 by set_solver.
      split_and!; [set_solver|done|set_solver..].
    + rewrite bool_decide_eq_true_2 by set_solver.
      split_and!; [set_solver|done|set_solver..].
  - unfold overlay_click. cbn [sidebar overlay aria_expanded].
    rewrite bool_decide_eq_false_2 by set_solver.
    split_and!; [set_solver|done|set_solver..].
Qed.

(** X19: On a page whose side bar and overlay start both open or both
    closed, they stay so together through any clicks on the toggle button
    and on the overlay; after the first click the button's [aria-expanded]
    tells whether the side bar is open, and no other class of the two
    elements is ever touched. *)
Theorem sidebar_overlay_in_step (d : drawer) (evs : list drawer_event) :
  ("active" ∈ sidebar d ↔ "active" ∈ overlay d) ->
  let d' := foldl drawer_dispatch d evs in
  ("active" ∈ sidebar d' ↔ "active" ∈ overlay d') ∧
  (evs ≠ [] ->
   aria_expanded d'
   = Some (String_of_bool (bool_decide ("active" ∈ sidebar d')))) ∧
  sidebar d' ∖ {["active"]} = sidebar d ∖ {["active"]} ∧
  overlay d' ∖ {["active"]} = overlay d ∖ {["active"]}.
Proof.
  intros Hsync. cbn zeta. induction evs as [|ev evs IH] using rev_ind.
  - by split_and!.
  - rewrite foldl_snoc. destruct IH as (Hsync' & _ & Hs & Ho).
    destruct (drawer_dispatch_in_step (foldl drawer_dispatch d evs) ev Hsync')
      as (H1 & H2 & H3 & H4).
    split_and!; [done|done|congruence..].
Qed.

Lemma sidebar_overlay_in_step_witness :
  let d' := foldl drawer_dispatch (Drawer {["offcanvas"]} ∅ None)
                  [ToggleClicked; OverlayClicked; ToggleClicked] in
  ("active" ∈ sidebar d' ↔ "active" ∈ overlay d') ∧
  ([ToggleClicked; OverlayClicked; ToggleClicked] ≠ [] ->
   aria_expanded d'
   = Some (String_of_bool (bool_decide ("active" ∈ sidebar d')))) ∧
  sidebar d' ∖ {["active"]} = ({["offcanvas"]} : gset string) ∖ {["active"]} ∧
  overlay d' ∖ {["active"]} = (∅ : gset string) ∖ {["active"]}.
Proof.
  assert ("active" ∈ sidebar (Drawer {["offcanvas"]} ∅ None)
          ↔ "active" ∈ overlay (Drawer {["offcanvas"]} ∅ None)) as Hsync.
  { cbn [sidebar overlay]. set_solver. }
  exact (sidebar_overlay_in_step (Drawer {["offcanvas"]} ∅ None)
           [ToggleClicked; OverlayClicked; ToggleClicked] Hsync).
Defined.

(** ** The welcome popup *)

Lemma hidePopup_present (perList : bool) (w : welcome) :
  is_Some (popup (hidePopup perList w)) ↔ is_Some (popup w).
Proof.
  unfold hidePopup. destruct (popup w) eqn:Hp; cbn [popup].
  - split; eauto.
  - by rewrite Hp.
Qed.

Lemma popup_dispatch_present (w : welcome) (ev : popup_event) :
  is_Some (popup (popup_dispatch w ev)) ↔ is_Some (popup w).
Proof.
  destruct ev as [| |key]; cbn [popup_dispatch];
    [apply hidePopup_present..|].
  destruct (decide (key = "Escape")); [apply hidePopup_present|done].
Qed.

Lemma hidePopup_false_storage (w : welcome) :
  sessionStorage (hidePopup false w) = sessionStorage w.
Proof. unfold hidePopup. by destruct (popup w). Qed.

Lemma popup_load_present (el : option popup_element)
    (storage : gmap string string) :
  is_Some (popup (popup_load el storage)) ↔ is_Some el.
Proof.
  unfold popup_load. destruct (storage !! "respondr_seen_popup") as [v|];
    [|done].
  destruct (decide (v = EmptyString)); [done|]. by rewrite hidePopup_present.
Qed.

Lemma popup_load_storage (el : option popup_element)
    (storage : gmap string string) :
  sessionStorage (popup_load el storage) = storage.
Proof.
  unfold popup_load. destruct (storage !! "respondr_seen_popup") as [v|];
    [|done].
  destruct (decide (v = EmptyString)); [done|].
  by rewrite hidePopup_false_storage.
Qed.

(** The storage after some events on a page: set by a click on Enter when
    the page has a popup, untouched otherwise. *)
Lemma popup_events_storage (w : welcome) (evs : list popup_event) :
  (is_Some (popup w) ∧ EnterClicked ∈ evs ∧
   sessionStorage (foldl popup_dispatch w evs)
   = <["respondr_seen_popup" := "1"]> (sessionStorage w))
  ∨ (¬ (is_Some (popup w) ∧ EnterClicked ∈ evs) ∧
     sessionStorage (foldl popup_dispatch w evs) = sessionStorage w).
Proof.
  revert w. induction evs as [|ev evs IH]; intros w.
  - right. split; [|done]. intros [_ Hin]. by apply elem_of_nil in Hin.
  - cbn [foldl].
    destruct (IH (popup_dispatch w ev)) as [(Hp & Hin & Hst)|(Hno & Hst)].
    + left. apply popup_dispatch_present in Hp.
      split_and!; [done|by right|]. rewrite Hst.
      destruct ev as [| |key]; cbn [popup_dispatch].
      * unfold hidePopup. destruct (popup w); [|done].
        cbn [sessionStorage]. by rewrite insert_insert_eq.
      * by rewrite hidePopup_false_storage.
      * destruct (decide (key = "Escape")); [|done].
        by rewrite hidePopup_false_storage.
    + rewrite popup_dispatch_present in Hno.
      destruct ev as [| |key]; cbn [popup_dispatch] in *.
      * unfold hidePopup in *. destruct (popup w) eqn:Hp.
        -- left. split_and!; [done|by left|].
           rewrite Hst. done.
        -- right. split; [|done]. intros [[? [=]] _].
      * right. rewrite Hst, hidePopup_false_storage. split; [|done].
        intros [Hp Hin]. apply Hno. split; [done|].
        by apply elem_of_cons in Hin as [[=]|?].
      * right. split.
        -- intros [Hp Hin]. apply Hno. split; [done|].
           by apply elem_of_cons in Hin as [[=]|?].
        -- rewrite Hst. destruct (decide (key = "Escape")); [|done].
           by rewrite hidePopup_false_storage.
Qed.

Lemma visit_storage (storage : gmap string string)
    (v : option popup_element * list popup_event) :
  (entered v ∧ visit storage v = <["respondr_seen_popup" := "1"]> storage)
  ∨ (¬ entered v ∧ visit storage v = storage).
Proof.
  unfold visit, entered.
  destruct (popup_events_storage (popup_load v.1 storage) v.2)
    as [(Hp & Hin & Hst)|(Hno & Hst)];
    rewrite popup_load_storage in Hst.
  - left. apply popup_load_present in Hp. done.
  - right. rewrite popup_load_present in Hno. done.
Qed.

Lemma browse_storage (storage : gmap string string)
    (visits : list (option popup_element * list popup_event)) :
  (Exists entered visits ∧
   browse storage visits = <["respondr_seen_popup" := "1"]> storage)
  ∨ (¬ Exists entered visits ∧ browse storage visits = storage).
Proof.
  induction visits as [|v visits IH] using rev_ind.
  - right. split; [|done]. by intros ?%Exists_nil.
  - unfold browse in *. rewrite foldl_snoc.
    destruct IH as [(Hex & ->)|(Hno & ->)];
      destruct (visit_storage (<["respondr_seen_popup" := "1"]> storage) v)
        as [(Hv & Hst)|(Hv & Hst)];
      destruct (visit_storage storage v) as [(Hv' & Hst')|(Hv' & Hst')];
      try tauto.
    + left. split; [apply Exists_app; by left|].
      by rewrite Hst, insert_insert_eq.
    + left. split; [apply Exists_app; by left|]. by rewrite Hst.
    + left. split; [|by rewrite Hst'].
      apply Exists_app. right. by constructor.
    + right. split; [|by rewrite Hst'].
      intros [?|Hx%Exists_cons]%Exists_app; [done|].
      destruct Hx as [?|?%Exists_nil]; done.
Qed.

(** X20: In a browser tab that has not seen the popup, a later page shows
    its welcome popup already hidden exactly when the popup was dismissed
    with Enter on some earlier page of the tab: dismissing it with Close or
    with the Escape key lasts for that page only. *)
Theorem popup_dismissed_for_session (storage : gmap string string)
    (visits : list (option popup_element * list popup_event))
    (el : popup_element) :
  storage !! "respondr_seen_popup" = None ->
  (Exists entered visits ->
   popup (popup_load (Some el) (browse storage visits))
   = Some (PopupElement (Some "none") (Some "true"))) ∧
  (¬ Exists entered visits ->
   popup (popup_load (Some el) (browse storage visits)) = Some el).
Proof.
  intros Hfresh.
  destruct (browse_storage storage visits) as [(Hex & ->)|(Hno & ->)];
    (split; [intros Hyes|intros Hnot]); try done; unfold popup_load.
  - rewrite lookup_insert_eq. done.
  - rewrite Hfresh. done.
Qed.

Lemma popup_dismissed_for_session_witness :
  popup (popup_load (Some (PopupElement None None))
           (browse ∅ [(Some (PopupElement None None),
                       [CloseClicked; KeyDown "Escape"]);
                      (Some (PopupElement None None), [EnterClicked])]))
  = Some (PopupElement (Some "none") (Some "true")).
Proof.
  assert ((∅ : gmap string string) !! "respondr_seen_popup" = None)
    as Hfresh by (vm_compute; reflexivity).
  destruct (popup_dismissed_for_session ∅
              [(Some (PopupElement None None),
                [CloseClicked; KeyDown "Escape"]);
               (Some (PopupElement None None), [EnterClicked])]
              (PopupElement None None) Hfresh) as [Hyes _].
  apply Hyes. apply Exists_cons. right. apply Exists_cons. left.
  split; [by eexists|]. cbn [snd]. set_solver.
Defined.

(** ** The announcement routes *)

Lemma js_or_truthy (a b : jsval) :
  truthy b = true -> truthy (js_or a b) = true.
Proof. intros Hb. unfold js_or. by destruct (truthy a) eqn:Ha. Qed.

Lemma js_or_null (a : jsval) :
  truthy (js_or a JNull) = true ∨ js_or a JNull = JNull.
Proof. unfold js_or. destruct (truthy a) eqn:Ha; [by left|by right]. Qed.

Lemma js_or_kept (a b : jsval) : truthy a = true -> js_or a b = a.
Proof. intros Ha. unfold js_or. by rewrite Ha. Qed.

Lemma js_or_null_kept (a : jsval) :
  truthy a = true ∨ a = JNull -> js_or a JNull = a.
Proof. intros [Ha| ->]; [by apply js_or_kept|done]. Qed.

Lemma post_announcement_posted (body : jsval) (added : option (string * Z))
    (coll : list (string * document)) :
  Forall (fun doc => posted doc.2) coll ->
  Forall (fun doc => posted doc.2) (post_announcement body added coll).2.
Proof.
  intros Hcoll. unfold post_announcement.
  destruct (get_prop body "title") as [title|]; [|done].
  destruct (get_prop body "message") as [message|]; [|done].
  destruct (get_prop body "category") as [category0|]; [|done].
  destruct (get_prop body "severity") as [severity|]; [|done].
  destruct (get_prop body "reporterType") as [reporterType|]; [|done].
  destruct (get_prop body "location") as [location|]; [|done].
  destruct (get_prop body "imageUrl") as [imageUrl|]; [|done].
  cbn [mbind result_bind].
  destruct (truthy title) eqn:Ht; [|done].
  destruct (truthy message) eqn:Hm; [|done].
  cbn [negb orb].
  destruct added as [[new_id now]|]; [|done]. cbn [snd].
  apply Forall_app. split; [done|]. constructor; [|constructor].
  cbn [snd]. unfold posted.
  cbn [d_title d_message d_category d_severity d_reporterType d_location
       d_imageUrl d_createdAt].
  split_and!; try done; try (by apply js_or_truthy);
    try apply js_or_null.
  by exists now.
Qed.

Lemma post_all_posted (reqs : list (jsval * option (string * Z))) :
  Forall (fun doc => posted doc.2) (post_all reqs).
Proof.
  unfold post_all. induction reqs as [|r reqs IH] using rev_ind.
  - constructor.
  - rewrite foldl_snoc. by apply post_announcement_posted.
Qed.

Lemma announcement_of_posted (iso : Z -> string)
    (parse : jsval -> result string) (doc : string * document) :
  posted doc.2 -> announcement_of iso parse doc = Ok (as_stored iso doc).
Proof.
  destruct doc as [doc_id d]. cbn [snd].
  intros (Ht & Hm & Hc & Hs & Hr & Hl & Hi & t & Hts).
  unfold announcement_of, as_stored. cbn [fst snd].
  rewrite Hts. cbn [createdAtString mbind result_bind].
  by rewrite !js_or_kept, !js_or_null_kept by done.
Qed.

Lemma mapM_all_ok {A B : Type} (f : A -> result B) (g : A -> B)
    (l : list A) :
  Forall (fun x => f x = Ok (g x)) l -> mapM f l = Ok (g <$> l).
Proof.
  induction 1 as [|x l Hx _ IH]; [done|].
  cbn [mapM]. rewrite Hx. cbn [mbind result_bind]. fold (mapM f l).
  rewrite IH. done.
Qed.

Lemma mapM_one_throws {A B : Type} (f : A -> result B) (l : list A)
    (x : A) (msg : text) :
  x ∈ l -> f x = Throw msg -> ∃ msg', mapM f l = Throw msg'.
Proof.
  intros Hin Hx. induction l as [|y l IH]; [by apply elem_of_nil in Hin|].
  cbn [mapM]. fold (mapM f l).
  destruct (f y) as [b|m] eqn:Hy; cbn [mbind result_bind]; [|by eexists].
  apply elem_of_cons in Hin as [->|Hin]; [congruence|].
  destruct (IH Hin) as [msg' ->]. by eexists.
Qed.

(** X21: The announcements added through [POST /] always have a title and
    a message, and [GET /] lists them, in whatever order the store gives
    them, with exactly the values they store: the defaults that [GET /]
    applies never change a document that [POST /] has written. *)
Theorem posted_announcements_listed (Timestamp_toISOString : Z -> string)
    (Date_toISOString : jsval -> result string)
    (reqs : list (jsval * option (string * Z)))
    (snapshot : list (string * document)) :
  snapshot ≡ₚ post_all reqs ->
  get_announcements Timestamp_toISOString Date_toISOString (Ok snapshot)
  = Reply 200 (AnnouncementsJson
                 (as_stored Timestamp_toISOString <$> snapshot)) ∧
  Forall (fun doc => truthy (d_title doc.2) = true ∧
                     truthy (d_message doc.2) = true) snapshot.
Proof.
  intros Hperm.
  assert (Forall (fun doc => posted doc.2) snapshot) as Hposted.
  { rewrite Hperm. apply post_all_posted. }
  split.
  - unfold get_announcements. cbn [mbind result_bind].
    rewrite (mapM_all_ok _ (as_stored Timestamp_toISOString)); [done|].
    eapply Forall_impl; [exact Hposted|].
    intros doc Hdoc. by apply announcement_of_posted.
  - eapply Forall_impl; [exact Hposted|].
    intros doc (Ht & Hm & _). done.
Qed.

Lemma posted_announcements_listed_witness :
  get_announcements (fun _ => "2025-01-01T00:00:00.000Z")
    (fun _ => Throw [Lit "Invalid time value"])
    (Ok (post_all [(JObj {[ "title" := JStr "Flood";
                            "message" := JStr "Leave now" ]},
                    Some ("a1", 0%Z))]))
  = Reply 200
      (AnnouncementsJson
         (as_stored (fun _ => "2025-01-01T00:00:00.000Z")
          <$> post_all [(JObj {[ "title" := JStr "Flood";
                                 "message" := JStr "Leave now" ]},
                         Some ("a1", 0%Z))])).
Proof.
  destruct (posted_announcements_listed
              (fun _ => "2025-01-01T00:00:00.000Z")
              (fun _ => Throw [Lit "Invalid time value"])
              [(JObj {[ "title" := JStr "Flood";
                        "message" := JStr "Leave now" ]},
                Some ("a1", 0%Z))]
              (post_all [(JObj {[ "title" := JStr "Flood";
                                  "message" := JStr "Leave now" ]},
                          Some ("a1", 0%Z))])) as [Hget _].
  { reflexivity. }
  exact Hget.
Defined.

(** X22: One document whose [createdAt] is a value that is no date makes
    [GET /] fail as a whole: the answer is the 500 error and none of the
    other announcements is listed. *)
Theorem bad_date_fails_listing (Timestamp_toISOString : Z -> string)
    (Date_toISOString : jsval -> result string)
    (snapshot : list (string * document)) (doc : string * document)
    (v : jsval) (msg : text) :
  doc ∈ snapshot ->
  d_createdAt doc.2 = Field v ->
  truthy v = true ->
  Date_toISOString v = Throw msg ->
  get_announcements Timestamp_toISOString Date_toISOString (Ok snapshot)
  = Reply 500 (ErrorJson "Failed to fetch announcements").
Proof.
  intros Hin Hfield Hv Hdate.
  assert (announcement_of Timestamp_toISOString Date_toISOString doc
          = Throw msg) as Hdoc.
  { destruct doc as [doc_id d]. cbn [snd] in Hfield.
    unfold announcement_of. rewrite Hfield. cbn [createdAtString].
    rewrite Hv, Hdate. done. }
  destruct (mapM_one_throws _ snapshot doc msg Hin Hdoc) as [msg' Hall].
  unfold get_announcements. cbn [mbind result_bind]. by rewrite Hall.
Qed.

Lemma bad_date_fails_listing_witness :
  get_announcements (fun _ => "2025-01-01T00:00:00.000Z")
    (fun _ => Throw [Lit "Invalid time value"])
    (Ok [("a1", Document (JStr "Flood") (JStr "Leave now") (JStr "info")
                  (JStr "low") (JStr "unknown") JNull JNull (Timestamp 0));
         ("a2", Document (JStr "Fire") (JStr "Stay in") JUndefined
                  JUndefined JUndefined JUndefined JUndefined
                  (Field (JStr "soon")))])
  = Reply 500 (ErrorJson "Failed to fetch announcements").
Proof.
  apply (bad_date_fails_listing _ _ _
           ("a2", Document (JStr "Fire") (JStr "Stay in") JUndefined
                    JUndefined JUndefined JUndefined JUndefined
                    (Field (JStr "soon")))
           (JStr "soon") [Lit "Invalid time value"]).
  - set_solver.
  - reflexivity.
  - reflexivity.
  - reflexivity.
Defined.

(** ** The drill form *)

(** X23: Submitting the drill form never sends it, and leaves it marked
    [was-validated] in every case: also an accepted submission, which
    empties the form, ends with the mark put back, so that the emptied
    fields are displayed as validated.  Only an accepted submission shows
    the thanks and resets the fields; no other class is touched. *)
Theorem drillForm_always_validated {V : Type} (checkValidity : V -> bool)
    (defaults : V) (f : drill_form V) :
  let f' := (drillForm_submit checkValidity defaults f).1 in
  (drillForm_submit checkValidity defaults f).2 = true ∧
  "was-validated" ∈ form_classList f' ∧
  form_classList f' ∖ {["was-validated"]}
  = form_classList f ∖ {["was-validated"]} ∧
  form_values f'
  = (if checkValidity (form_values f) then defaults else form_values f) ∧
  length (alerts f')
  = length (alerts f) + (if checkValidity (form_values f) then 1 else 0).
Proof.
  unfold drillForm_submit.
  destruct (checkValidity (form_values f)); cbn -[union difference];
    split_and!; try done; try set_solver.
  rewrite length_app. done.
Qed.
